(** * bfc: an optimizing bytecode compiler for BF

    A shallow embedding of [bfc.c] and the verification of its pipeline:
    [lex], [parse], [compile], [optimize] and [run].

    Conventions of the embedding.
    - [char] is the signed 8-bit type of the x86 targets gcc builds for
      (with an unsigned [char] the test [cur != EOF] of [lex] could never
      fail); a value is a [Z] in [-128, 127] and every store into a [char]
      goes through [to_char].
    - [int] variables hold indices and counts bounded by the buffer sizes;
      they are plain [Z].
    - A fixed-size C buffer is the list of the slots written so far, its end
      marker included.  Reading a slot that was never written, dereferencing
      the null [loop_stack] and indexing [data] outside the tape are the
      behaviours C leaves undefined: the embedding reports them as
      [UNDEFINED].
    - [stdin] is the list of the values successive [getc] calls return: bytes
      [0..255], or [EOF] where the stream signals an end-of-file condition
      that [clearerr] later clears; past the end of the list every read
      returns [EOF]. *)

From Stdlib Require Import ZArith Lia Ascii String.
From stdpp Require Import base tactics option list numbers.

Local Open Scope Z_scope.

(** ** Constants and types *)

Definition TAPELEN : Z := 30000.
Definition EOF : Z := -1.
Definition NUL : Z := 0.

Inductive Opcode : Type :=
  | OP_ADD | OP_SUB | OP_INC | OP_DEC
  | OP_PUT | OP_GET | OP_JMP | OP_JNE
  | NUM_OPS.

Global Instance Opcode_eq_dec : EqDecision Opcode.
Proof. solve_decision. Defined.

Record Instruction : Type := mkInst { op : Opcode; arg : Z }.

Global Instance Instruction_eq_dec : EqDecision Instruction.
Proof. solve_decision. Defined.

(** What a stage hands back: [SUCCESS] and [FAILURE] are the two status codes
    of the C functions, [UNDEFINED] stands for undefined behaviour. *)
Inductive outcome (A : Type) : Type :=
  | SUCCESS (a : A)
  | FAILURE
  | UNDEFINED.
Arguments SUCCESS {A} a.
Arguments FAILURE {A}.
Arguments UNDEFINED {A}.

(** Conversion of an [int] to [char]: reduction modulo 2^8 into the signed
    range. *)
Definition to_char (v : Z) : Z := (v + 128) mod 256 - 128.

(** Conversion of a [char] to [unsigned char], as [putchar] does. *)
Definition to_uchar (c : Z) : Z := c mod 256.

(** The eight command characters: + - > < . , [ ] *)
Definition is_command (c : Z) : bool :=
  match c with
  | 43 | 45 | 62 | 60 | 46 | 44 | 91 | 93 => true
  | _ => false
  end.

(** The character codes of a string literal. *)
Fixpoint chars_of_string (s : string) : list Z :=
  match s with
  | EmptyString => []
  | String a s' => Z.of_N (N_of_ascii a) :: chars_of_string s'
  end.

(** ** lex *)

(** The loop of [lex]; [cur] is read at the head of each round.  At the end
    of [input], [getc] returns [EOF]. *)
Fixpoint lex_loop (input : list Z) (tokens : list Z) (count : Z)
  : outcome (list Z * list Z) :=
  match input with
  | [] => SUCCESS (tokens ++ [NUL], [])
  | c :: input' =>
      let cur := to_char c in
      if cur =? EOF then SUCCESS (tokens ++ [NUL], input')
      else if count >=? TAPELEN - 2 then FAILURE
      else if is_command cur
           then lex_loop input' (tokens ++ [cur]) (count + 1)
           else lex_loop input' tokens count
  end.

(** [lex input] returns the token buffer and what is left of the stream. *)
Definition lex (input : list Z) : outcome (list Z * list Z) :=
  lex_loop input [] 0.

(** ** parse *)

(** The [switch] of [parse] has no default: for a character that is not a
    command the slot [ast[i]] keeps what the caller's buffer held, [ast0 i]. *)
Fixpoint parse_loop (ast0 : nat -> Opcode) (tokens : list Z)
    (unmatched : Z) (ast : list Opcode) : outcome (list Opcode) :=
  match tokens with
  | [] => UNDEFINED
  | c :: tokens' =>
      if c =? NUL then
        if negb (unmatched =? 0) then FAILURE
        else SUCCESS (ast ++ [NUM_OPS])
      else
        match c with
        | 43 => parse_loop ast0 tokens' unmatched (ast ++ [OP_ADD])
        | 45 => parse_loop ast0 tokens' unmatched (ast ++ [OP_SUB])
        | 62 => parse_loop ast0 tokens' unmatched (ast ++ [OP_INC])
        | 60 => parse_loop ast0 tokens' unmatched (ast ++ [OP_DEC])
        | 46 => parse_loop ast0 tokens' unmatched (ast ++ [OP_PUT])
        | 44 => parse_loop ast0 tokens' unmatched (ast ++ [OP_GET])
        | 91 => parse_loop ast0 tokens' (unmatched + 1) (ast ++ [OP_JMP])
        | 93 => parse_loop ast0 tokens' (unmatched - 1) (ast ++ [OP_JNE])
        | _ => parse_loop ast0 tokens' unmatched (ast ++ [ast0 (length ast)])
        end
  end.

Definition parse (ast0 : nat -> Opcode) (tokens : list Z)
  : outcome (list Opcode) :=
  parse_loop ast0 tokens 0 [].

(** ** compile *)

Fixpoint compile_loop (ast : list Opcode) (bytecode : list Instruction)
  : outcome (list Instruction) :=
  match ast with
  | [] => UNDEFINED
  | o :: ast' =>
      if decide (o = NUM_OPS) then SUCCESS (bytecode ++ [mkInst NUM_OPS 0])
      else compile_loop ast' (bytecode ++ [mkInst o 1])
  end.

Definition compile (ast : list Opcode) : outcome (list Instruction) :=
  compile_loop ast [].

(** ** optimize *)

(** [out[hd].arg = cur].  The stack only holds positions already written;
    a slot outside the written part is left as it is. *)
Definition set_arg (out : list Instruction) (hd : nat) (a : Z)
  : list Instruction :=
  match out !! hd with
  | Some i => <[hd := mkInst (op i) a]> out
  | None => out
  end.

(** The outer loop of [optimize] runs over the rest of [bcode]; [out] is the
    part of the output written so far, so that [cur] is its length.  The
    inner [fold] is the folding loop: it runs while the next instruction has
    the opcode of [inst]. *)
Fixpoint optimize_loop (bcode : list Instruction) (out : list Instruction)
    (loop_stack : list nat) {struct bcode} : outcome (list Instruction) :=
  match bcode with
  | [] => UNDEFINED
  | b :: bcode' =>
      if decide (op b = NUM_OPS) then SUCCESS (out ++ [mkInst NUM_OPS 0])
      else if decide (op b = OP_JMP) then
        optimize_loop bcode' (out ++ [b]) (length out :: loop_stack)
      else if decide (op b = OP_JNE) then
        match loop_stack with
        | [] => UNDEFINED
        | hd :: tl =>
            let cur := Z.of_nat (length out) in
            optimize_loop bcode'
              (set_arg out hd cur ++ [mkInst (op b) (Z.of_nat hd)]) tl
        end
      else
        (fix fold (inst : Instruction) (rest : list Instruction)
             {struct rest} : outcome (list Instruction) :=
           match rest with
           | [] => UNDEFINED
           | b' :: rest' =>
               if decide (op b' = op inst)
               then fold (mkInst (op inst) (arg inst + 1)) rest'
               else optimize_loop rest (out ++ [inst]) loop_stack
           end) b bcode'
  end.

Definition optimize (bcode : list Instruction) : outcome (list Instruction) :=
  optimize_loop bcode [] [].

(** ** run *)

(** The locals of [run] other than [ip], and the two streams. *)
Record state : Type := mkState {
  dp : Z;
  data : list Z;
  stdin : list Z;
  stdout : list Z
}.

Global Instance outcome_ret : MRet outcome := fun _ a => SUCCESS a.
Global Instance outcome_bind : MBind outcome := fun _ _ f x =>
  match x with
  | SUCCESS a => f a
  | FAILURE => FAILURE
  | UNDEFINED => UNDEFINED
  end.

(** [l[i]] for an [int] index; [None] outside the written part. *)
Definition zlookup {A} (l : list A) (i : Z) : option A :=
  if i <? 0 then None else l !! Z.to_nat i.

(** [data[dp]] as an rvalue. *)
Definition load (s : state) : outcome Z :=
  match zlookup (data s) (dp s) with
  | Some c => SUCCESS c
  | None => UNDEFINED
  end.

(** [data[dp] = v] *)
Definition store (v : Z) (s : state) : outcome state :=
  match zlookup (data s) (dp s) with
  | Some _ =>
      SUCCESS (mkState (dp s) (<[Z.to_nat (dp s) := to_char v]> (data s))
                 (stdin s) (stdout s))
  | None => UNDEFINED
  end.

(** [getchar()] *)
Definition getchar (s : state) : Z * state :=
  match stdin s with
  | [] => (EOF, s)
  | c :: rest => (c, mkState (dp s) (data s) rest (stdout s))
  end.

(** [putchar(c)] *)
Definition putchar (c : Z) (s : state) : state :=
  mkState (dp s) (data s) (stdin s) (stdout s ++ [to_uchar c]).

(** [for (int i = 0; i < n; i++) putchar(data[dp]);] *)
Fixpoint put_loop (n : nat) (s : state) : outcome state :=
  match n with
  | O => SUCCESS s
  | S n' => c ← load s; put_loop n' (putchar c s)
  end.

(** [for (int i = 0; i < n; i++) data[dp] = getchar();] *)
Fixpoint get_loop (n : nat) (s : state) : outcome state :=
  match n with
  | O => SUCCESS s
  | S n' => let '(c, s1) := getchar s in s2 ← store c s1; get_loop n' s2
  end.

Definition set_dp (d : Z) (s : state) : state :=
  mkState d (data s) (stdin s) (stdout s).

(** The [switch] of [run]: the instruction pointer and the state after one
    instruction, before [ip++]. *)
Definition exec (i : Instruction) (ip : Z) (s : state) : outcome (Z * state) :=
  match op i with
  | OP_ADD => c ← load s; s' ← store (c + arg i) s; mret (ip, s')
  | OP_SUB => c ← load s; s' ← store (c - arg i) s; mret (ip, s')
  | OP_INC => mret (ip, set_dp (dp s + arg i) s)
  | OP_DEC => mret (ip, set_dp (dp s - arg i) s)
  | OP_PUT => s' ← put_loop (Z.to_nat (arg i)) s; mret (ip, s')
  | OP_GET => s' ← get_loop (Z.to_nat (arg i)) s; mret (ip, s')
  | OP_JMP => c ← load s; mret (if c =? 0 then arg i else ip, s)
  | OP_JNE => c ← load s; mret (if negb (c =? 0) then arg i else ip, s)
  | NUM_OPS => mret (ip, s)
  end.

(** How far a run has come when the fuel is spent. *)
Inductive run_result : Type :=
  | Running (ip : Z) (s : state)
  | Halted (s : state)
  | Crashed.

(** The [while] loop of [run]; one unit of fuel per instruction. *)
Fixpoint run_loop (fuel : nat) (program : list Instruction) (ip : Z)
    (s : state) : run_result :=
  match fuel with
  | O => Running ip s
  | S fuel' =>
      match zlookup program ip with
      | None => Crashed
      | Some i =>
          if decide (op i = NUM_OPS) then Halted s
          else match exec i ip s with
               | SUCCESS (ip', s') => run_loop fuel' program (ip' + 1) s'
               | _ => Crashed
               end
      end
  end.

(** The tape after the zeroing loop of [run]. *)
Definition initial_state (input : list Z) : state :=
  mkState 0 (replicate (Z.to_nat TAPELEN) 0) input [].

Definition run (fuel : nat) (program : list Instruction) (input : list Z)
  : run_result :=
  run_loop fuel program 0 (initial_state input).

(** ** main *)

(** What the process leaves behind: its exit status ([None] while it is still
    running or after undefined behaviour), and what it wrote to the error
    and output streams. *)
Record process : Type := mkProcess {
  exit_status : option Z;
  stderr : string;
  output : list Z
}.

Definition quit (msg : string) : process := mkProcess (Some 1) msg [].

Definition newline : string := String (ascii_of_nat 10) EmptyString.

Definition process_of_run (r : run_result) : process :=
  match r with
  | Halted s => mkProcess (Some 0) EmptyString (stdout s)
  | Running _ s => mkProcess None EmptyString (stdout s)
  | Crashed => mkProcess None EmptyString []
  end.

(** [ast0] is what the uninitialised [ast] buffer of [main] holds. *)
Definition main (ast0 : nat -> Opcode) (fuel : nat) (input : list Z)
  : process :=
  match lex input with
  | UNDEFINED => mkProcess None EmptyString []
  | FAILURE => quit ("ERROR: Program exceeds available memory" ++ newline)
  | SUCCESS (tokens, input') =>
  match parse ast0 tokens with
  | UNDEFINED => mkProcess None EmptyString []
  | FAILURE => quit ("SYNTAX ERROR: Unmatched '[' or ']'" ++ newline)
  | SUCCESS ast =>
  match compile ast with
  | UNDEFINED => mkProcess None EmptyString []
  | FAILURE => quit "ERROR: Compilation failed"
  | SUCCESS bytecode =>
  match optimize bytecode with
  | UNDEFINED => mkProcess None EmptyString []
  | FAILURE => quit "ERROR: Optimization failed"
  | SUCCESS optimized =>
      process_of_run (run fuel optimized input')
  end end end end.


Definition succeeded {A} (o : outcome A) : bool :=
  match o with
  | SUCCESS _ => true
  | _ => false
  end.

(** * Notions of the specification *)

(** ** Bracket balance *)

(** The running open-bracket count, started at [depth], never goes negative
    at a prefix of [tokens] and is zero after the last token. *)
Fixpoint balanced_from (depth : Z) (tokens : list Z) : bool :=
  match tokens with
  | [] => depth =? 0
  | c :: tokens' =>
      let depth' :=
        if c =? 91 then depth + 1
        else if c =? 93 then depth - 1
        else depth in
      (0 <=? depth') && balanced_from depth' tokens'
  end.

Definition balanced (tokens : list Z) : bool := balanced_from 0 tokens.

(** The opcode [parse] stores for a command character. *)
Definition opcode_of (c : Z) : Opcode :=
  match c with
  | 43 => OP_ADD | 45 => OP_SUB | 62 => OP_INC | 60 => OP_DEC
  | 46 => OP_PUT | 44 => OP_GET | 91 => OP_JMP | _ => OP_JNE
  end.

(** The lowered form of a token sequence: one unit instruction per token. *)
Definition lower (tokens : list Z) : list Instruction :=
  (fun c => mkInst (opcode_of c) 1) <$> tokens.

Definition END : Instruction := mkInst NUM_OPS 0.

(** ** The naive interpreter *)

(** Textual bracket matching.  [find_close l depth] scans [l] forward and
    returns the offset of the closing jump that ends the loop entered
    [depth + 1] levels up; [find_open] does the same backward, on the
    reversed text before a closing jump. *)
Fixpoint find_close (l : list Instruction) (depth : nat) : option nat :=
  match l with
  | [] => None
  | i :: l' =>
      match op i with
      | OP_JMP => S <$> find_close l' (S depth)
      | OP_JNE =>
          match depth with
          | O => Some O
          | S d => S <$> find_close l' d
          end
      | _ => S <$> find_close l' depth
      end
  end.

Fixpoint find_open (l : list Instruction) (depth : nat) : option nat :=
  match l with
  | [] => None
  | i :: l' =>
      match op i with
      | OP_JNE => S <$> find_open l' (S depth)
      | OP_JMP =>
          match depth with
          | O => Some O
          | S d => S <$> find_open l' d
          end
      | _ => S <$> find_open l' depth
      end
  end.

(** The position of the bracket matching the one at [ip]. *)
Definition matching_close (prog : list Instruction) (ip : Z) : option Z :=
  (fun k => ip + 1 + Z.of_nat k) <$> find_close (drop (Z.to_nat ip + 1) prog) 0.

Definition matching_open (prog : list Instruction) (ip : Z) : option Z :=
  (fun k => ip - 1 - Z.of_nat k) <$> find_open (rev (take (Z.to_nat ip) prog)) 0.

(** One command that is not a bracket, done once. *)
Definition naive_unit (o : Opcode) (s : state) : outcome state :=
  match o with
  | OP_ADD => c ← load s; store (c + 1) s
  | OP_SUB => c ← load s; store (c - 1) s
  | OP_INC => mret (set_dp (dp s + 1) s)
  | OP_DEC => mret (set_dp (dp s - 1) s)
  | OP_PUT => c ← load s; mret (putchar c s)
  | OP_GET => let '(c, s1) := getchar s in store c s1
  | _ => mret s
  end.

(** One instruction of the lowered program, executed as a single command:
    the argument is not looked at, a jump finds its partner in the text. *)
Definition naive_exec (prog : list Instruction) (i : Instruction) (ip : Z)
    (s : state) : outcome (Z * state) :=
  match op i with
  | OP_JMP =>
      c ← load s;
      if c =? 0 then
        match matching_close prog ip with
        | Some q => mret (q, s)
        | None => UNDEFINED
        end
      else mret (ip, s)
  | OP_JNE =>
      c ← load s;
      if negb (c =? 0) then
        match matching_open prog ip with
        | Some p => mret (p, s)
        | None => UNDEFINED
        end
      else mret (ip, s)
  | o => s' ← naive_unit o s; mret (ip, s')
  end.

Fixpoint naive_loop (fuel : nat) (prog : list Instruction) (ip : Z)
    (s : state) : run_result :=
  match fuel with
  | O => Running ip s
  | S fuel' =>
      match zlookup prog ip with
      | None => Crashed
      | Some i =>
          if decide (op i = NUM_OPS) then Halted s
          else match naive_exec prog i ip s with
               | SUCCESS (ip', s') => naive_loop fuel' prog (ip' + 1) s'
               | _ => Crashed
               end
      end
  end.

Definition naive_run (fuel : nat) (prog : list Instruction) (input : list Z)
  : run_result :=
  naive_loop fuel prog 0 (initial_state input).

(** What an observer sees of a run: whether it is still going, has halted or
    has crashed, and the bytes written so far. *)
Inductive observation : Type :=
  | StillRunning (out : list Z)
  | HasHalted (out : list Z)
  | HasCrashed.

Definition observe (r : run_result) : observation :=
  match r with
  | Running _ s => StillRunning (stdout s)
  | Halted s => HasHalted (stdout s)
  | Crashed => HasCrashed
  end.

(** ** Folding *)

Definition is_jump (o : Opcode) : bool :=
  match o with
  | OP_JMP | OP_JNE => true
  | _ => false
  end.

(** The unit instructions one instruction of the optimized program stands
    for. *)
Definition expand1 (i : Instruction) : list Instruction :=
  match op i with
  | OP_JMP | OP_JNE => [mkInst (op i) 1]
  | NUM_OPS => [i]
  | _ => replicate (Z.to_nat (arg i)) (mkInst (op i) 1)
  end.

Definition expand (l : list Instruction) : list Instruction :=
  l ≫= expand1.

(** No two neighbours share an opcode, jumps apart. *)
Fixpoint folded (l : list Instruction) : Prop :=
  match l with
  | a :: l' =>
      match l' with
      | b :: _ => (op a = op b -> is_jump (op a) = true) /\ folded l'
      | [] => True
      end
  | [] => True
  end.

(** The count of opening brackets less the count of closing ones. *)
Fixpoint net_depth (tokens : list Z) : Z :=
  match tokens with
  | [] => 0
  | c :: tokens' =>
      (if c =? 91 then 1 else if c =? 93 then -1 else 0) + net_depth tokens'
  end.

Definition is_simple (o : Opcode) : bool :=
  match o with
  | OP_JMP | OP_JNE | NUM_OPS => false
  | _ => true
  end.

(** The number of instructions at the head of [l] whose opcode is [o]. *)
Fixpoint run_length (o : Opcode) (l : list Instruction) : nat :=
  match l with
  | b :: l' => if decide (op b = o) then S (run_length o l') else O
  | [] => O
  end.

(** ** Jump resolution *)

(** Balance of the brackets of a piece of code entered at [depth]. *)
Fixpoint closes_all (depth : nat) (l : list Instruction) : bool :=
  match l with
  | [] => Nat.eqb depth 0
  | i :: l' =>
      match op i with
      | OP_JMP => closes_all (S depth) l'
      | OP_JNE =>
          match depth with
          | O => false
          | S d => closes_all d l'
          end
      | _ => closes_all depth l'
      end
  end.

(** [wf_block base s]: the code [s], placed at position [base] of a program,
    is made of folded instructions and of loops whose two jumps carry each
    other's position. *)
Inductive wf_block : nat -> list Instruction -> Prop :=
  | wf_nil base :
      wf_block base []
  | wf_simple base s x :
      wf_block base s ->
      is_simple (op x) = true ->
      1 <= arg x ->
      wf_block base (s ++ [x])
  | wf_loop base s j t c :
      wf_block base s ->
      wf_block (base + length s + 1) t ->
      op j = OP_JMP ->
      arg j = Z.of_nat (base + length s + 1 + length t) ->
      op c = OP_JNE ->
      arg c = Z.of_nat (base + length s) ->
      wf_block base (s ++ j :: t ++ [c]).

(** [open_blocks out stack]: the output written so far is a sequence of
    well-formed blocks separated by the opening jumps still waiting for
    their partner, whose positions are on the stack, innermost first. *)
Inductive open_blocks : list Instruction -> list nat -> Prop :=
  | ob_base s :
      wf_block 0 s ->
      open_blocks s []
  | ob_push l st j s :
      open_blocks l st ->
      op j = OP_JMP ->
      wf_block (length l + 1) s ->
      open_blocks (l ++ j :: s) (length l :: st).

(** Unit code: what [compile] produces before the end marker. *)
Definition unit_code (body : list Instruction) : Prop :=
  Forall (fun i => op i <> NUM_OPS /\ arg i = 1) body.

(** Where the instruction at position [c] of an optimized program starts in
    the expanded text. *)
Definition start (out : list Instruction) (c : nat) : nat :=
  length (expand (take c out)).

(** [k] unit commands in a row. *)
Fixpoint naive_units (o : Opcode) (k : nat) (s : state) : outcome state :=
  match k with
  | O => SUCCESS s
  | S k' => s' ← naive_unit o s; naive_units o k' s'
  end.

(** ** Further notions *)

(** No closing jump of [l], entered at [depth], comes before its opening
    one. *)
Fixpoint never_negative (depth : nat) (l : list Instruction) : bool :=
  match l with
  | [] => true
  | i :: l' =>
      match op i with
      | OP_JMP => never_negative (S depth) l'
      | OP_JNE =>
          match depth with
          | O => false
          | S d => never_negative d l'
          end
      | _ => never_negative depth l'
      end
  end.

(** The tape has its [TAPELEN] cells and each holds a [char]. *)
Definition tape_ok (s : state) : Prop :=
  length (data s) = Z.to_nat TAPELEN /\
  Forall (fun c => -128 <= c < 128) (data s).

(** The state a run is in, unless it has crashed. *)
Definition state_of (r : run_result) : option state :=
  match r with
  | Running _ s => Some s
  | Halted s => Some s
  | Crashed => None
  end.

(** The loop stack holds, innermost first, the positions of the opening
    jumps of [pre] that the backward scan from the end of [pre] finds
    open. *)
Definition stack_mirrors (pre : list Instruction) (st : list nat) : Prop :=
  Forall (fun p => (p < length pre)%nat) st /\
  forall d,
    find_open (rev pre) d = (fun p => (length pre - S p)%nat) <$> st !! d.


(** The instructions whose execution reads or writes [data[dp]]. *)
Definition uses_cell (o : Opcode) : bool :=
  match o with
  | OP_INC | OP_DEC | NUM_OPS => false
  | _ => true
  end.

(** * Verification *)

(** ** Characters *)

Lemma to_char_small (c : Z) : -128 <= c < 128 -> to_char c = c.
Proof.
  intros H. unfold to_char.
  rewrite Z.mod_small by lia. lia.
Qed.

Lemma to_char_range (v : Z) : -128 <= to_char v < 128.
Proof.
  unfold to_char. pose proof (Z.mod_pos_bound (v + 128) 256). lia.
Qed.

Lemma to_char_idemp (v : Z) : to_char (to_char v) = to_char v.
Proof. apply to_char_small, to_char_range. Qed.

Lemma to_char_add (v w : Z) : to_char (to_char v + w) = to_char (v + w).
Proof.
  unfold to_char.
  replace ((v + 128) mod 256 - 128 + w + 128) with ((v + 128) mod 256 + w) by lia.
  rewrite Zplus_mod_idemp_l. f_equal. f_equal. lia.
Qed.

Lemma to_uchar_to_char (v : Z) : to_uchar (to_char v) = v mod 256.
Proof.
  unfold to_uchar, to_char.
  rewrite Zminus_mod, Zmod_mod, <- Zminus_mod. f_equal. lia.
Qed.

Lemma is_command_cases (c : Z) :
  is_command c = true ->
  c = 43 \/ c = 45 \/ c = 62 \/ c = 60 \/ c = 46 \/ c = 44 \/ c = 91 \/ c = 93.
Proof.
  intros H.
  destruct (decide (c = 43)); [tauto|]. destruct (decide (c = 45)); [tauto|].
  destruct (decide (c = 62)); [tauto|]. destruct (decide (c = 60)); [tauto|].
  destruct (decide (c = 46)); [tauto|]. destruct (decide (c = 44)); [tauto|].
  destruct (decide (c = 91)); [tauto|]. destruct (decide (c = 93)); [tauto|].
  exfalso.
  destruct c as [|p|p]; try discriminate.
  do 7 (destruct p as [p|p|]; try discriminate; try lia).
Qed.

Ltac command_cases H :=
  apply is_command_cases in H;
  destruct H as [H|[H|[H|[H|[H|[H|[H|H]]]]]]]; subst.

(** ** lex *)

Section Lex.
Implicit Types (src tail tokens : list Z) (count : Z).

Lemma honest_char (c : Z) :
  0 <= c < 255 ->
  (to_char c =? EOF) = false /\
  is_command (to_char c) = is_command c /\
  (is_command c = true -> to_char c = c).
Proof.
  intros Hc. destruct (decide (c < 128)) as [Hs|Hs].
  - rewrite to_char_small by lia. unfold EOF.
    split; [apply Z.eqb_neq; lia | done].
  - assert (Hv : to_char c = c - 256).
    { unfold to_char.
      replace (c + 128) with (c - 128 + 1 * 256) by lia.
      rewrite Z_mod_plus_full, Z.mod_small by lia. lia. }
    rewrite Hv. unfold EOF. split; [apply Z.eqb_neq; lia|].
    assert (is_command c = false).
    { destruct (is_command c) eqn:E; [|done]. command_cases E; lia. }
    assert (is_command (c - 256) = false).
    { destruct (is_command (c - 256)) eqn:E; [|done]. command_cases E; lia. }
    split; congruence.
Qed.

Lemma lex_loop_end tail tokens count :
  tail = [] \/ head tail = Some EOF ->
  lex_loop tail tokens count = SUCCESS (tokens ++ [NUL], drop 1 tail).
Proof.
  intros [->|H]; [done|].
  destruct tail as [|c tail]; [done|]. simpl in H. injection H as ->.
  reflexivity.
Qed.

Lemma lex_loop_fits src tail tokens count :
  Forall (fun c => 0 <= c < 255) src ->
  tail = [] \/ head tail = Some EOF ->
  (forall k, (k < length src)%nat ->
     count + Z.of_nat (length (filter is_command (take k src))) < TAPELEN - 2) ->
  lex_loop (src ++ tail) tokens count
  = SUCCESS (tokens ++ filter is_command src ++ [NUL], drop 1 tail).
Proof.
  intros Hsrc Htail. revert tokens count.
  induction Hsrc as [|c src Hc Hsrc IH]; intros tokens count Hfit.
  - simpl. by apply lex_loop_end.
  - destruct (honest_char c Hc) as (He & Hcmd & Hid).
    simpl. rewrite He.
    pose proof (Hfit 0%nat ltac:(simpl; lia)) as H0. simpl in H0.
    destruct (count >=? TAPELEN - 2) eqn:Hg; [lia|].
    rewrite Hcmd. destruct (is_command c) eqn:Ec.
    + rewrite Hid by done. rewrite IH.
      * rewrite filter_cons_True by (by rewrite Ec).
        by rewrite <- app_assoc.
      * intros k Hk. pose proof (Hfit (S k) ltac:(simpl; lia)) as H1.
        simpl in H1. rewrite filter_cons_True in H1 by (by rewrite Ec).
        simpl in H1. lia.
    + rewrite IH.
      * rewrite filter_cons_False by (rewrite Ec; intros []). done.
      * intros k Hk. pose proof (Hfit (S k) ltac:(simpl; lia)) as H1.
        simpl in H1. rewrite filter_cons_False in H1 by (rewrite Ec; intros []).
        done.
Qed.

Lemma lex_loop_overflow src tail tokens count :
  Forall (fun c => 0 <= c < 255) src ->
  (exists k, (k < length src)%nat /\
     TAPELEN - 2 <= count + Z.of_nat (length (filter is_command (take k src)))) ->
  lex_loop (src ++ tail) tokens count = FAILURE.
Proof.
  intros Hsrc. revert tokens count.
  induction Hsrc as [|c src Hc Hsrc IH]; intros tokens count (k & Hk & Hfull).
  - simpl in Hk. lia.
  - destruct (honest_char c Hc) as (He & Hcmd & Hid).
    simpl. rewrite He.
    destruct (count >=? TAPELEN - 2) eqn:Hg; [done|].
    destruct k as [|k]; [simpl in Hfull; lia|].
    simpl in Hk, Hfull.
    rewrite Hcmd. destruct (is_command c) eqn:Ec.
    + apply IH. exists k. split; [lia|].
      rewrite filter_cons_True in Hfull by (by rewrite Ec).
      simpl in Hfull. lia.
    + apply IH. exists k. split; [lia|].
      by rewrite filter_cons_False in Hfull by (rewrite Ec; intros []).
Qed.
End Lex.

Lemma bounded_search (P : nat -> Prop) (n : nat) :
  (forall k, Decision (P k)) ->
  (exists k, (k < n)%nat /\ P k) \/ (forall k, (k < n)%nat -> ~ P k).
Proof.
  intros Hdec. induction n as [|n [(k & Hk & HP)|IH]].
  - right. intros k Hk. lia.
  - left. exists k. split; [lia|done].
  - destruct (Hdec n) as [HP|HP].
    + left. exists n. split; [lia|done].
    + right. intros k Hk. destruct (decide (k = n)) as [->|Hne]; [done|].
      apply IH. lia.
Qed.

(** C7, as amended.  For a source whose bytes are below 255, followed by the
    end of the stream: [lex] fails exactly when a character, command or not,
    is read after [TAPELEN - 2] commands have been stored; otherwise it
    returns the commands of the source in order, the other characters
    dropped, and leaves the stream after the end-of-file condition. *)
Theorem lex_capacity (src tail : list Z) :
  Forall (fun c => 0 <= c < 255) src ->
  tail = [] \/ head tail = Some EOF ->
  (lex (src ++ tail) = FAILURE <->
   exists k, (k < length src)%nat /\
     TAPELEN - 2 <= Z.of_nat (length (filter is_command (take k src)))) /\
  (lex (src ++ tail) <> FAILURE ->
   lex (src ++ tail) = SUCCESS (filter is_command src ++ [NUL], drop 1 tail)).
Proof.
  intros Hsrc Htail.
  destruct (bounded_search
    (fun k => TAPELEN - 2 <= Z.of_nat (length (filter is_command (take k src))))
    (length src) ltac:(intros k; apply _)) as [Hfull|Hfits].
  - assert (Hf : lex (src ++ tail) = FAILURE).
    { apply lex_loop_overflow; [done|].
      destruct Hfull as (k & Hk & H). exists k. split; [done|lia]. }
    split; [done|]. by intros [].
  - assert (Hs : lex (src ++ tail)
                 = SUCCESS (filter is_command src ++ [NUL], drop 1 tail)).
    { unfold lex. rewrite lex_loop_fits; [done..|].
      intros k Hk. specialize (Hfits k Hk). lia. }
    split; [|done]. rewrite Hs. split; [done|].
    intros (k & Hk & H). by destruct (Hfits k Hk).
Qed.

Lemma lex_capacity_witness :
  lex (chars_of_string "+ [-] # done" ++ [EOF; 65])
  = SUCCESS (chars_of_string "+[-]" ++ [NUL], [65]).
Proof.
  apply (lex_capacity (chars_of_string "+ [-] # done") [EOF; 65]).
  - repeat constructor; lia.
  - right. reflexivity.
  - vm_compute. discriminate.
Defined.

(** C7, as stated, fails: [TAPELEN - 2] commands are accepted, and the same
    commands followed by a newline, which is not a command and would not be
    stored, are rejected. *)
Lemma lex_rejects_trailing_newline :
  is_command 10 = false /\
  succeeded (lex (replicate (Z.to_nat (TAPELEN - 2)) 43)) = true /\
  lex (replicate (Z.to_nat (TAPELEN - 2)) 43 ++ [10]) = FAILURE.
Proof.
  split; [reflexivity|].
  split; vm_compute; reflexivity.
Qed.

(** ** parse *)

Lemma parse_loop_commands (ast0 : nat -> Opcode) (tokens : list Z)
    (unmatched : Z) (ast : list Opcode) :
  Forall (fun c => is_command c = true) tokens ->
  parse_loop ast0 (tokens ++ [NUL]) unmatched ast
  = if unmatched + net_depth tokens =? 0
    then SUCCESS (ast ++ (opcode_of <$> tokens) ++ [NUM_OPS])
    else FAILURE.
Proof.
  intros Htok. revert unmatched ast.
  induction Htok as [|c tokens Hc Htok IH]; intros unmatched ast.
  - simpl. rewrite Z.add_0_r. by destruct (unmatched =? 0).
  - command_cases Hc; simpl; rewrite IH, <- app_assoc; simpl.
    all: match goal with
         | |- (if ?a =? 0 then _ else _) = (if ?b =? 0 then _ else _) =>
             replace b with a by lia
         end; reflexivity.
Qed.

Lemma parse_commands (ast0 : nat -> Opcode) (tokens : list Z) :
  Forall (fun c => is_command c = true) tokens ->
  parse ast0 (tokens ++ [NUL])
  = if net_depth tokens =? 0
    then SUCCESS ((opcode_of <$> tokens) ++ [NUM_OPS])
    else FAILURE.
Proof. intros H. unfold parse. by rewrite parse_loop_commands. Qed.

Lemma balanced_from_net (depth : Z) (tokens : list Z) :
  balanced_from depth tokens = true -> depth + net_depth tokens = 0.
Proof.
  revert depth. induction tokens as [|c tokens IH]; intros depth; simpl.
  - intros H%Z.eqb_eq. lia.
  - intros [_ H%IH]%andb_prop.
    destruct (c =? 91); [lia|]. destruct (c =? 93); lia.
Qed.

Lemma parse_balanced (ast0 : nat -> Opcode) (tokens : list Z) :
  Forall (fun c => is_command c = true) tokens ->
  balanced tokens = true ->
  parse ast0 (tokens ++ [NUL]) = SUCCESS ((opcode_of <$> tokens) ++ [NUM_OPS]).
Proof.
  intros Htok Hbal%balanced_from_net. rewrite parse_commands by done.
  rewrite Z.add_0_l in Hbal. by rewrite Hbal.
Qed.

(** C1 at the input that breaks it: the text "][" is not balanced, the count
    being negative after its first token, and [parse] accepts it. *)
Theorem parse_accepts_close_before_open (ast0 : nat -> Opcode) :
  balanced (chars_of_string "][") = false /\
  parse ast0 (chars_of_string "][" ++ [NUL])
  = SUCCESS [OP_JNE; OP_JMP; NUM_OPS].
Proof. split; reflexivity. Qed.

(** C2 at the input that breaks it: "][" passes [parse] and [compile], and
    [optimize] then reaches its closing jump with [loop_stack] null; the
    process ends there without an exit status. *)
Theorem optimize_underflow_after_parse (ast0 : nat -> Opcode) (fuel : nat) :
  parse ast0 (chars_of_string "][" ++ [NUL])
  = SUCCESS [OP_JNE; OP_JMP; NUM_OPS] /\
  compile [OP_JNE; OP_JMP; NUM_OPS]
  = SUCCESS [mkInst OP_JNE 1; mkInst OP_JMP 1; mkInst NUM_OPS 0] /\
  optimize [mkInst OP_JNE 1; mkInst OP_JMP 1; mkInst NUM_OPS 0] = UNDEFINED /\
  main ast0 fuel (chars_of_string "][") = mkProcess None EmptyString [].
Proof. repeat split. Qed.

(** ** compile *)

Lemma opcode_of_command (c : Z) :
  is_command c = true -> opcode_of c <> NUM_OPS.
Proof. intros H. command_cases H; discriminate. Qed.

Lemma compile_loop_lower (tokens : list Z) (bytecode : list Instruction) :
  Forall (fun c => is_command c = true) tokens ->
  compile_loop ((opcode_of <$> tokens) ++ [NUM_OPS]) bytecode
  = SUCCESS (bytecode ++ lower tokens ++ [END]).
Proof.
  intros Htok. revert bytecode.
  induction Htok as [|c tokens Hc Htok IH]; intros bytecode; [done|].
  simpl. destruct (decide (opcode_of c = NUM_OPS)) as [E|_].
  - by apply opcode_of_command in E.
  - rewrite IH, <- app_assoc. done.
Qed.

Lemma compile_lower (tokens : list Z) :
  Forall (fun c => is_command c = true) tokens ->
  compile ((opcode_of <$> tokens) ++ [NUM_OPS]) = SUCCESS (lower tokens ++ [END]).
Proof. intros H. unfold compile. by rewrite compile_loop_lower. Qed.

(** ** The tape *)

Lemma zlookup_Some {A} (l : list A) (i : Z) (x : A) :
  zlookup l i = Some x <-> 0 <= i /\ l !! Z.to_nat i = Some x.
Proof.
  unfold zlookup. destruct (i <? 0) eqn:E.
  - apply Z.ltb_lt in E. split; [done|]. intros [H _]. lia.
  - apply Z.ltb_ge in E. split; [|tauto]. intros H. split; [lia|done].
Qed.

Lemma zlookup_of_nat {A} (l : list A) (n : nat) :
  zlookup l (Z.of_nat n) = l !! n.
Proof.
  unfold zlookup. destruct (Z.ltb_spec (Z.of_nat n) 0); [lia|].
  by rewrite Nat2Z.id.
Qed.

Lemma zlookup_insert_data (l : list Z) (i v c : Z) :
  zlookup l i = Some c -> zlookup (<[Z.to_nat i := v]> l) i = Some v.
Proof.
  intros [Hi Hl]%zlookup_Some. apply zlookup_Some. split; [done|].
  apply list_lookup_insert_eq. by apply lookup_lt_Some in Hl.
Qed.

Lemma load_Some (s : state) (c : Z) :
  zlookup (data s) (dp s) = Some c -> load s = SUCCESS c.
Proof. intros H. unfold load. by rewrite H. Qed.

Lemma store_Some (s : state) (v c : Z) :
  zlookup (data s) (dp s) = Some c ->
  store v s
  = SUCCESS (mkState (dp s) (<[Z.to_nat (dp s) := to_char v]> (data s))
               (stdin s) (stdout s)).
Proof. intros H. unfold store. by rewrite H. Qed.

Lemma load_None (s : state) :
  zlookup (data s) (dp s) = None -> load s = UNDEFINED.
Proof. intros H. unfold load. by rewrite H. Qed.

Lemma store_None (s : state) (v : Z) :
  zlookup (data s) (dp s) = None -> store v s = UNDEFINED.
Proof. intros H. unfold store. by rewrite H. Qed.

(** ** Input *)

Lemma get_loop_S (n : nat) (s : state) :
  get_loop (S n) s
  = s2 ← store (getchar s).1 (getchar s).2; get_loop n s2.
Proof. simpl. by destruct (getchar s). Qed.

Lemma get_loop_last (earlier : list Z) (b : Z) (rest : list Z) (s : state)
    (c0 : Z) :
  stdin s = earlier ++ b :: rest ->
  zlookup (data s) (dp s) = Some c0 ->
  get_loop (S (length earlier)) s
  = SUCCESS (mkState (dp s) (<[Z.to_nat (dp s) := to_char b]> (data s))
               rest (stdout s)).
Proof.
  revert s c0. induction earlier as [|e earlier IH]; intros s c0 Hin Hcell.
  - rewrite get_loop_S. unfold getchar. rewrite Hin. simpl.
    by erewrite store_Some by done.
  - simpl length. rewrite get_loop_S. unfold getchar. rewrite Hin.
    cbn -[get_loop].
    erewrite store_Some by done. unfold mbind, outcome_bind.
    erewrite IH; simpl; [|done|by eapply zlookup_insert_data].
    by rewrite list_insert_insert_eq.
Qed.

(** C8.  An Input instruction with argument [n], run where the stream still
    holds [n] values, takes these [n] values off the stream; afterwards the
    current cell holds the last of them, whatever the [n - 1] values before
    it were, and nothing else has changed. *)
Theorem input_keeps_last_read (n ip : Z) (s : state) (earlier : list Z)
    (b : Z) (rest : list Z) :
  Z.of_nat (length earlier) = n - 1 ->
  stdin s = earlier ++ b :: rest ->
  is_Some (zlookup (data s) (dp s)) ->
  let s' := mkState (dp s) (<[Z.to_nat (dp s) := to_char b]> (data s))
              rest (stdout s) in
  exec (mkInst OP_GET n) ip s = SUCCESS (ip, s') /\
  load s' = SUCCESS (to_char b) /\
  to_uchar (to_char b) = b mod 256.
Proof.
  intros Hn Hin [c0 Hcell] s'. split; [|split].
  - unfold exec. simpl.
    replace (Z.to_nat n) with (S (length earlier)) by lia.
    by erewrite get_loop_last by done.
  - apply load_Some. simpl. by eapply zlookup_insert_data.
  - apply to_uchar_to_char.
Qed.

Lemma input_keeps_last_read_witness :
  exec (mkInst OP_GET 3) 5 (mkState 1 [0; 7; 0] [97; 98; 99; 100] [])
  = SUCCESS (5, mkState 1 [0; 99; 0] [100] []) /\
  load (mkState 1 [0; 99; 0] [100] []) = SUCCESS 99 /\
  to_uchar (to_char 99) = 99 mod 256.
Proof.
  apply (input_keeps_last_read 3 5 (mkState 1 [0; 7; 0] [97; 98; 99; 100] [])
           [97; 98] 99 [100]).
  - reflexivity.
  - reflexivity.
  - by eexists.
Defined.

Lemma get_loop_exhausted (n : nat) (s : state) (c0 : Z) :
  stdin s = [] ->
  zlookup (data s) (dp s) = Some c0 ->
  get_loop (S n) s
  = SUCCESS (mkState (dp s) (<[Z.to_nat (dp s) := EOF]> (data s)) []
               (stdout s)).
Proof.
  revert s c0. induction n as [|n IH]; intros s c0 Hin Hcell.
  - rewrite get_loop_S. unfold getchar. rewrite Hin. simpl.
    erewrite store_Some by done. simpl. by rewrite Hin.
  - rewrite get_loop_S. unfold getchar. rewrite Hin. cbn -[get_loop].
    erewrite store_Some by done. unfold mbind, outcome_bind.
    erewrite IH; simpl; [|done|by eapply zlookup_insert_data].
    by rewrite list_insert_insert_eq.
Qed.

(** C10.  An Input instruction reached with the stream exhausted succeeds:
    it stores [EOF], that is -1, into the current cell, whose byte value is
    then 255, and changes nothing else; the round of [run] that executes it
    neither halts nor crashes but leaves the run going at the next
    instruction. *)
Theorem input_at_end_of_stream (program : list Instruction) (fuel : nat)
    (ip n : Z) (s : state) :
  zlookup program ip = Some (mkInst OP_GET n) ->
  1 <= n ->
  stdin s = [] ->
  is_Some (zlookup (data s) (dp s)) ->
  let s' := mkState (dp s) (<[Z.to_nat (dp s) := -1]> (data s)) []
              (stdout s) in
  exec (mkInst OP_GET n) ip s = SUCCESS (ip, s') /\
  run_loop 1 program ip s = Running (ip + 1) s' /\
  run_loop (S fuel) program ip s = run_loop fuel program (ip + 1) s' /\
  load s' = SUCCESS (-1) /\
  to_uchar (-1) = 255.
Proof.
  intros Hi Hn Hin [c0 Hcell] s'.
  assert (He : exec (mkInst OP_GET n) ip s = SUCCESS (ip, s')).
  { unfold exec. simpl.
    replace (Z.to_nat n) with (S (Z.to_nat n - 1)) by lia.
    by erewrite get_loop_exhausted by done. }
  split; [done|]. split; [|split; [|split; [|done]]].
  - simpl. rewrite Hi. simpl. by rewrite He.
  - simpl. rewrite Hi. simpl. by rewrite He.
  - apply load_Some. simpl. by eapply zlookup_insert_data.
Qed.

Lemma input_at_end_of_stream_witness :
  exec (mkInst OP_GET 2) 0 (mkState 0 [65] [] [])
  = SUCCESS (0, mkState 0 [-1] [] []) /\
  run_loop 1 [mkInst OP_GET 2; mkInst OP_PUT 1; END] 0 (mkState 0 [65] [] [])
  = Running (0 + 1) (mkState 0 [-1] [] []) /\
  run_loop 3 [mkInst OP_GET 2; mkInst OP_PUT 1; END] 0 (mkState 0 [65] [] [])
  = run_loop 2 [mkInst OP_GET 2; mkInst OP_PUT 1; END] (0 + 1)
      (mkState 0 [-1] [] []) /\
  load (mkState 0 [-1] [] []) = SUCCESS (-1) /\
  to_uchar (-1) = 255.
Proof.
  apply (input_at_end_of_stream [mkInst OP_GET 2; mkInst OP_PUT 1; END] 2 0 2
           (mkState 0 [65] [] [])).
  - reflexivity.
  - lia.
  - reflexivity.
  - by eexists.
Defined.

(** ** Fuel *)

Lemma run_loop_add (n k : nat) (program : list Instruction) (ip : Z)
    (s : state) :
  run_loop (n + k) program ip s
  = match run_loop n program ip s with
    | Running ip' s' => run_loop k program ip' s'
    | r => r
    end.
Proof.
  revert ip s. induction n as [|n IH]; intros ip s; [done|].
  simpl. destruct (zlookup program ip) as [i|]; [|done].
  destruct (decide (op i = NUM_OPS)); [done|].
  destruct (exec i ip s) as [[ip' s']| |]; [|done..].
  apply IH.
Qed.

Lemma naive_loop_add (n k : nat) (prog : list Instruction) (ip : Z)
    (s : state) :
  naive_loop (n + k) prog ip s
  = match naive_loop n prog ip s with
    | Running ip' s' => naive_loop k prog ip' s'
    | r => r
    end.
Proof.
  revert ip s. induction n as [|n IH]; intros ip s; [done|].
  simpl. destruct (zlookup prog ip) as [i|]; [|done].
  destruct (decide (op i = NUM_OPS)); [done|].
  destruct (naive_exec prog i ip s) as [[ip' s']| |]; [|done..].
  apply IH.
Qed.

Lemma run_loop_halted_more (n m : nat) (program : list Instruction) (ip : Z)
    (s s' : state) :
  (n <= m)%nat ->
  run_loop n program ip s = Halted s' ->
  run_loop m program ip s = Halted s'.
Proof.
  intros Hle H. replace m with (n + (m - n))%nat by lia.
  by rewrite run_loop_add, H.
Qed.

Lemma run_loop_halted_unique (n m : nat) (program : list Instruction)
    (ip : Z) (s s1 s2 : state) :
  run_loop n program ip s = Halted s1 ->
  run_loop m program ip s = Halted s2 ->
  s1 = s2.
Proof.
  intros H1 H2. destruct (decide (n <= m)%nat) as [Hle|Hgt].
  - rewrite (run_loop_halted_more n m _ _ _ s1) in H2 by done. congruence.
  - rewrite (run_loop_halted_more m n _ _ _ s2) in H1 by (done || lia).
    congruence.
Qed.

Lemma observe_halted_more (n m : nat) (program : list Instruction) (ip : Z)
    (s : state) (o : list Z) :
  (n <= m)%nat ->
  observe (run_loop n program ip s) = HasHalted o ->
  observe (run_loop m program ip s) = HasHalted o.
Proof.
  intros Hle H.
  destruct (run_loop n program ip s) as [| s' |] eqn:E; try discriminate.
  by rewrite (run_loop_halted_more n m _ _ _ s').
Qed.

Lemma process_of_run_halted (r : run_result) (o : list Z) :
  observe r = HasHalted o ->
  process_of_run r = mkProcess (Some 0) EmptyString o.
Proof. destruct r; simpl; congruence. Qed.

(** ** The loop of section 8 *)

(** C6.  The source [++++++++[>++++++++<-]>.], with nothing after it on the
    stream, runs to its end and writes the single byte 64; enough fuel is
    the 45 loop tests the run takes. *)
Theorem multiply_writes_64 (ast0 : nat -> Opcode) (fuel : nat) :
  (45 <= fuel)%nat ->
  main ast0 fuel (chars_of_string "++++++++[>++++++++<-]>.")
  = mkProcess (Some 0) EmptyString [64].
Proof.
  intros Hfuel. unfold main.
  change (lex (chars_of_string "++++++++[>++++++++<-]>."))
    with (SUCCESS (chars_of_string "++++++++[>++++++++<-]>." ++ [NUL],
                   @nil Z)).
  cbv beta iota.
  rewrite parse_balanced by (try reflexivity; repeat constructor).
  rewrite compile_lower by repeat constructor.
  change (optimize (lower (chars_of_string "++++++++[>++++++++<-]>.") ++ [END]))
    with (SUCCESS [mkInst OP_ADD 8; mkInst OP_JMP 6; mkInst OP_INC 1;
                   mkInst OP_ADD 8; mkInst OP_DEC 1; mkInst OP_SUB 1;
                   mkInst OP_JNE 1; mkInst OP_INC 1; mkInst OP_PUT 1; END]).
  cbv beta iota.
  apply process_of_run_halted.
  apply (observe_halted_more 45 fuel); [done|].
  vm_compute. reflexivity.
Qed.

Lemma multiply_writes_64_witness :
  main (fun _ => NUM_OPS) 60 (chars_of_string "++++++++[>++++++++<-]>.")
  = mkProcess (Some 0) EmptyString [64].
Proof. apply (multiply_writes_64 (fun _ => NUM_OPS) 60). lia. Defined.

(** ** optimize: the shape of the loop *)

Lemma simple_not_end (o : Opcode) :
  o <> NUM_OPS -> o <> OP_JMP -> o <> OP_JNE -> is_simple o = true.
Proof. by destruct o. Qed.

Lemma run_length_le (o : Opcode) (l : list Instruction) :
  (run_length o l <= length l)%nat.
Proof.
  induction l as [|b l IH]; simpl; [lia|].
  destruct (decide (op b = o)); lia.
Qed.

Lemma run_length_app_end (o : Opcode) (l : list Instruction)
    (e : Instruction) :
  op e <> o -> run_length o (l ++ [e]) = run_length o l.
Proof.
  intros He. induction l as [|b l IH]; simpl.
  - by destruct (decide (op e = o)).
  - destruct (decide (op b = o)); [by rewrite IH|done].
Qed.

Lemma run_length_head (o : Opcode) (l : list Instruction) (b : Instruction) :
  head (drop (run_length o l) l) = Some b -> op b <> o.
Proof.
  induction l as [|b' l IH]; simpl; [done|].
  destruct (decide (op b' = o)); simpl; [done|].
  intros [= ->]. done.
Qed.

Lemma run_length_take (o : Opcode) (l : list Instruction) :
  Forall (fun i => arg i = 1) l ->
  take (run_length o l) l = replicate (run_length o l) (mkInst o 1).
Proof.
  induction 1 as [|[o' a] l Ha Hl IH]; simpl; [done|].
  destruct (decide (o' = o)) as [->|]; simpl; [|done].
  simpl in Ha. subst a. by rewrite IH.
Qed.

(** The folding loop, seen from outside: it swallows the run of [op b]. *)
Lemma optimize_loop_fold (b : Instruction) (rest out : list Instruction)
    (st : list nat) :
  is_simple (op b) = true ->
  optimize_loop (b :: rest) out st
  = optimize_loop (drop (run_length (op b) rest) rest)
      (out ++ [mkInst (op b) (arg b + Z.of_nat (run_length (op b) rest))]) st.
Proof.
  intros Hb. simpl.
  destruct (decide (op b = NUM_OPS)) as [E|_]; [by rewrite E in Hb|].
  destruct (decide (op b = OP_JMP)) as [E|_]; [by rewrite E in Hb|].
  destruct (decide (op b = OP_JNE)) as [E|_]; [by rewrite E in Hb|].
  clear Hb. revert b. induction rest as [|b' rest IH]; intros b.
  - done.
  - simpl run_length. destruct (decide (op b' = op b)) as [E|E].
    + rewrite IH. simpl. rewrite Nat2Z.inj_succ. do 4 f_equal. lia.
    + simpl. destruct b as [o a]; simpl in *.
      destruct (decide (op b' = o)); [done|].
      by rewrite Z.add_0_r.
Qed.

(** Induction over the rounds of the outer loop of [optimize], for a code
    [body] followed by its end marker. *)
Lemma optimize_body_ind
    (P : list Instruction -> list Instruction -> list nat ->
         outcome (list Instruction) -> Prop) :
  (forall out st, P [] out st (SUCCESS (out ++ [END]))) ->
  (forall b rest out st r,
     op b = OP_JMP ->
     P rest (out ++ [b]) (length out :: st) r ->
     P (b :: rest) out st r) ->
  (forall b rest out, op b = OP_JNE -> P (b :: rest) out [] UNDEFINED) ->
  (forall b rest out hd tl r,
     op b = OP_JNE ->
     P rest (set_arg out hd (Z.of_nat (length out))
               ++ [mkInst OP_JNE (Z.of_nat hd)]) tl r ->
     P (b :: rest) out (hd :: tl) r) ->
  (forall b rest out st r,
     is_simple (op b) = true ->
     P (drop (run_length (op b) rest) rest)
       (out ++ [mkInst (op b) (arg b + Z.of_nat (run_length (op b) rest))])
       st r ->
     P (b :: rest) out st r) ->
  forall body out st,
    Forall (fun i => op i <> NUM_OPS) body ->
    P body out st (optimize_loop (body ++ [END]) out st).
Proof.
  intros Hend Hjmp Hnull Hjne Hfold body.
  induction body as [body IH] using (induction_ltof1 _ (@length _)).
  unfold ltof in IH. intros out st Hbody.
  destruct body as [|b rest]; [apply Hend|].
  apply Forall_cons_1 in Hbody as [Hb Hrest].
  destruct (decide (op b = OP_JMP)) as [Ej|Nj].
  { apply Hjmp; [done|]. simpl.
    destruct (decide (op b = NUM_OPS)); [done|].
    destruct (decide (op b = OP_JMP)); [|done].
    apply IH; [simpl; lia|done]. }
  destruct (decide (op b = OP_JNE)) as [Ec|Nc].
  { simpl.
    destruct (decide (op b = NUM_OPS)); [done|].
    destruct (decide (op b = OP_JMP)); [done|].
    destruct (decide (op b = OP_JNE)); [|done].
    destruct st as [|hd tl]; [by apply Hnull|].
    apply Hjne; [done|]. rewrite Ec. apply IH; [simpl; lia|done]. }
  assert (Hs : is_simple (op b) = true) by by apply simple_not_end.
  apply Hfold; [done|].
  change ((b :: rest) ++ [END]) with (b :: (rest ++ [END])).
  rewrite optimize_loop_fold by done.
  rewrite run_length_app_end by done.
  rewrite drop_app_le by apply run_length_le.
  apply IH.
  - rewrite length_drop. simpl. lia.
  - by apply Forall_drop.
Qed.

(** ** optimize: jump resolution *)

Lemma set_arg_middle (l : list Instruction) (j : Instruction)
    (s : list Instruction) (a : Z) :
  set_arg (l ++ j :: s) (length l) a = l ++ mkInst (op j) a :: s.
Proof.
  unfold set_arg. rewrite list_lookup_middle by done.
  replace (length l) with (length l + 0)%nat at 1 by lia.
  by rewrite insert_app_r.
Qed.

Lemma open_blocks_extend (l t : list Instruction) (st : list nat) :
  open_blocks l st ->
  (forall base s, wf_block base s -> (base + length s)%nat = length l ->
     wf_block base (s ++ t)) ->
  open_blocks (l ++ t) st.
Proof.
  intros Hl Ht. destruct Hl as [s Hs|l st j s Hl Hj Hs].
  - apply ob_base. by apply Ht.
  - rewrite <- app_assoc. simpl. apply ob_push; [done..|].
    apply Ht; [done|]. rewrite length_app. simpl. lia.
Qed.

Lemma closes_all_drop_run (o : Opcode) (depth : nat) (l : list Instruction) :
  is_simple o = true ->
  closes_all depth (drop (run_length o l) l) = closes_all depth l.
Proof.
  intros Ho. induction l as [|b l IH]; simpl; [done|].
  destruct (decide (op b = o)) as [E|_]; [|done].
  simpl. rewrite IH. rewrite E. by destruct o.
Qed.

Lemma closes_all_simple (depth : nat) (b : Instruction)
    (l : list Instruction) :
  is_simple (op b) = true -> closes_all depth (b :: l) = closes_all depth l.
Proof. simpl. by destruct (op b). Qed.

(** On balanced unit code [optimize] succeeds, and every loop of its output
    is resolved. *)
Lemma optimize_loop_wf (body out : list Instruction) (st : list nat) :
  Forall (fun i => op i <> NUM_OPS) body ->
  Forall (fun i => arg i = 1) body ->
  closes_all (length st) body = true ->
  open_blocks out st ->
  exists out',
    optimize_loop (body ++ [END]) out st = SUCCESS (out' ++ [END]) /\
    wf_block 0 out'.
Proof.
  intros Hbody. revert body out st Hbody.
  apply (optimize_body_ind (fun body out st r =>
    Forall (fun i => arg i = 1) body ->
    closes_all (length st) body = true ->
    open_blocks out st ->
    exists out', r = SUCCESS (out' ++ [END]) /\ wf_block 0 out')).
  - intros out st _ Hd Hout. exists out. split; [done|].
    destruct st; [|done]. by inversion Hout.
  - intros b rest out st r Hb IH Hunit Hd Hout.
    apply Forall_cons_1 in Hunit as [_ Hunit].
    apply IH; [done|by simpl in *; rewrite Hb in Hd|].
    by apply ob_push; [|  |apply wf_nil].
  - intros b rest out Hb _ Hd. simpl in Hd. by rewrite Hb in Hd.
  - intros b rest out hd tl r Hb IH Hunit Hd Hout.
    apply Forall_cons_1 in Hunit as [_ Hunit].
    apply IH; [done|by simpl in *; rewrite Hb in Hd|].
    inversion Hout as [|l st j s Hl Hj Hs]; subst.
    rewrite set_arg_middle, <- app_assoc. simpl.
    apply open_blocks_extend; [done|].
    intros base s0 Hs0 Hlen.
    apply wf_loop; simpl; try done.
    + by replace (base + length s0 + 1)%nat with (length l + 1)%nat by lia.
    + rewrite length_app. simpl. lia.
    + lia.
  - intros b rest out st r Hb IH Hunit Hd Hout.
    apply Forall_cons_1 in Hunit as [Hargb Hunit].
    apply IH.
    + by apply Forall_drop.
    + rewrite closes_all_drop_run by done.
      by rewrite closes_all_simple in Hd.
    + apply open_blocks_extend; [done|].
      intros base s0 Hs0 _. apply wf_simple; simpl; [done..|lia].
Qed.

(** ** Textual matching in resolved code *)

Lemma find_close_found_app (l r : list Instruction) (d k : nat) :
  find_close l d = Some k -> find_close (l ++ r) d = Some k.
Proof.
  revert d k. induction l as [|i l IH]; intros d k; simpl; [done|].
  destruct (op i); try destruct d; intros H; try done;
    apply fmap_Some in H as (k' & H & ->); by erewrite IH.
Qed.

Lemma find_open_found_app (l r : list Instruction) (d k : nat) :
  find_open l d = Some k -> find_open (l ++ r) d = Some k.
Proof.
  revert d k. induction l as [|i l IH]; intros d k; simpl; [done|].
  destruct (op i); try destruct d; intros H; try done;
    apply fmap_Some in H as (k' & H & ->); by erewrite IH.
Qed.

Ltac option_arith o := destruct o; simpl; [f_equal; lia | done].

Lemma find_close_simple (x : Instruction) (l : list Instruction) (d : nat) :
  is_simple (op x) = true -> find_close (x :: l) d = S <$> find_close l d.
Proof. simpl. by destruct (op x). Qed.

Lemma find_open_simple (x : Instruction) (l : list Instruction) (d : nat) :
  is_simple (op x) = true -> find_open (x :: l) d = S <$> find_open l d.
Proof. simpl. by destruct (op x). Qed.

(** A resolved block is skipped as a whole, in either direction. *)
Lemma find_close_wf (base : nat) (s : list Instruction) :
  wf_block base s ->
  forall d rest,
    find_close (s ++ rest) d = Nat.add (length s) <$> find_close rest d.
Proof.
  induction 1 as [base|base s x Hs IHs Hx Hax
                 |base s j t c Hs IHs Ht IHt Hj Haj Hc Hac]; intros d rest.
  - simpl. by destruct (find_close rest d).
  - rewrite <- app_assoc. simpl app. rewrite IHs, find_close_simple by done.
    rewrite length_app. option_arith (find_close rest d).
  - rewrite <- app_assoc. simpl app. rewrite IHs. simpl find_close at 1.
    rewrite Hj, <- app_assoc. simpl app. rewrite IHt. simpl find_close at 1.
    rewrite Hc. rewrite length_app. simpl. rewrite length_app.
    option_arith (find_close rest d).
Qed.

Lemma find_open_wf (base : nat) (s : list Instruction) :
  wf_block base s ->
  forall d rest,
    find_open (rev s ++ rest) d = Nat.add (length s) <$> find_open rest d.
Proof.
  induction 1 as [base|base s x Hs IHs Hx Hax
                 |base s j t c Hs IHs Ht IHt Hj Haj Hc Hac]; intros d rest.
  - simpl. by destruct (find_open rest d).
  - rewrite rev_app_distr. simpl app. rewrite find_open_simple by done.
    rewrite IHs, length_app. option_arith (find_open rest d).
  - rewrite rev_app_distr. simpl rev. rewrite rev_app_distr. simpl rev.
    simpl app. rewrite <- !app_assoc. simpl app.
    simpl find_open at 1. rewrite Hc, IHt. simpl find_open at 1.
    rewrite Hj, IHs. rewrite length_app. simpl. rewrite length_app.
    option_arith (find_open rest d).
Qed.

(** In a resolved block every opening jump has its partner after it, found
    by the forward scan, and the two carry each other's position. *)
Lemma wf_block_jmp (base : nat) (s : list Instruction) :
  wf_block base s ->
  forall p j, s !! p = Some j -> op j = OP_JMP ->
  exists q c,
    (p < q)%nat /\ s !! q = Some c /\ op c = OP_JNE /\
    arg j = Z.of_nat (base + q) /\ arg c = Z.of_nat (base + p) /\
    find_close (drop (S p) s) 0 = Some (q - S p)%nat.
Proof.
  induction 1 as [base|base s x Hs IHs Hx Hax
                 |base s j0 t c0 Hs IHs Ht IHt Hj Haj Hc Hac]; intros p j Hp Hop.
  - done.
  - apply lookup_app_Some in Hp as [Hp|[Hle Hp]].
    + destruct (IHs p j Hp Hop) as (q & c & Hpq & Hq & Hcq & Hj & Hc & Hf).
      exists q, c. repeat split; try done.
      * by apply lookup_app_l_Some.
      * rewrite drop_app_le by (apply lookup_lt_Some in Hp; lia).
        by apply find_close_found_app.
    + apply list_lookup_singleton_Some in Hp as [_ ->].
      by rewrite Hop in Hx.
  - apply lookup_app_Some in Hp as [Hp|[Hle Hp]].
    { destruct (IHs p j Hp Hop) as (q & c & Hpq & Hq & Hcq & Hj' & Hc' & Hf).
      exists q, c. repeat split; try done.
      - by apply lookup_app_l_Some.
      - rewrite drop_app_le by (apply lookup_lt_Some in Hp; lia).
        by apply find_close_found_app. }
    destruct (p - length s)%nat as [|p'] eqn:Ep; simpl in Hp.
    { injection Hp as <-. assert (p = length s) as -> by lia.
      exists (length s + 1 + length t)%nat, c0. repeat split; try done.
      - lia.
      - rewrite lookup_app_r by lia.
        replace (length s + 1 + length t - length s)%nat
          with (S (length t)) by lia.
        simpl. rewrite lookup_app_r by lia.
        by replace (length t - length t)%nat with 0%nat by lia.
      - rewrite Haj. lia.
      - rewrite drop_app_ge by lia.
        replace (S (length s) - length s)%nat with 1%nat by lia. simpl.
        rewrite drop_0, (find_close_wf _ _ Ht). simpl. rewrite Hc. simpl.
        f_equal. lia. }
    apply lookup_app_Some in Hp as [Hp|[Hle' Hp]].
    + destruct (IHt p' j Hp Hop) as (q & c & Hpq & Hq & Hcq & Hj' & Hc' & Hf).
      exists (length s + 1 + q)%nat, c. repeat split; try done.
      * lia.
      * rewrite lookup_app_r by lia.
        replace (length s + 1 + q - length s)%nat with (S q) by lia.
        simpl. by apply lookup_app_l_Some.
      * rewrite Hj'. lia.
      * rewrite Hc'. lia.
      * rewrite drop_app_ge by lia.
        replace (S p - length s)%nat with (S (S p')) by lia. simpl.
        rewrite drop_app_le by (apply lookup_lt_Some in Hp; lia).
        erewrite find_close_found_app by done. f_equal. lia.
    + apply list_lookup_singleton_Some in Hp as [_ ->]. congruence.
Qed.

(** ... and every closing jump has its partner before it, found by the
    backward scan. *)
Lemma wf_block_jne (base : nat) (s : list Instruction) :
  wf_block base s ->
  forall q c, s !! q = Some c -> op c = OP_JNE ->
  exists p j,
    (p < q)%nat /\ s !! p = Some j /\ op j = OP_JMP /\
    arg j = Z.of_nat (base + q) /\ arg c = Z.of_nat (base + p) /\
    find_open (rev (take q s)) 0 = Some (q - S p)%nat.
Proof.
  induction 1 as [base|base s x Hs IHs Hx Hax
                 |base s j0 t c0 Hs IHs Ht IHt Hj Haj Hc Hac]; intros q c Hq Hop.
  - done.
  - apply lookup_app_Some in Hq as [Hq|[Hle Hq]].
    + destruct (IHs q c Hq Hop) as (p & j & Hpq & Hp & Hjp & Hj & Hc & Hf).
      exists p, j. repeat split; try done.
      * by apply lookup_app_l_Some.
      * by rewrite take_app_le by (apply lookup_lt_Some in Hq; lia).
    + apply list_lookup_singleton_Some in Hq as [_ ->].
      by rewrite Hop in Hx.
  - apply lookup_app_Some in Hq as [Hq|[Hle Hq]].
    { destruct (IHs q c Hq Hop) as (p & j & Hpq & Hp & Hjp & Hj' & Hc' & Hf).
      exists p, j. repeat split; try done.
      - by apply lookup_app_l_Some.
      - by rewrite take_app_le by (apply lookup_lt_Some in Hq; lia). }
    destruct (q - length s)%nat as [|q'] eqn:Eq; simpl in Hq.
    { injection Hq as <-. congruence. }
    apply lookup_app_Some in Hq as [Hq|[Hle' Hq]].
    + destruct (IHt q' c Hq Hop) as (p & j & Hpq & Hp & Hjp & Hj' & Hc' & Hf).
      exists (length s + 1 + p)%nat, j. repeat split; try done.
      * lia.
      * rewrite lookup_app_r by lia.
        replace (length s + 1 + p - length s)%nat with (S p) by lia.
        simpl. by apply lookup_app_l_Some.
      * rewrite Hj'. lia.
      * rewrite Hc'. lia.
      * rewrite take_app_ge by lia.
        replace (q - length s)%nat with (S q') by lia. simpl.
        rewrite take_app_le by (apply lookup_lt_Some in Hq; lia).
        rewrite rev_app_distr. simpl. rewrite <- app_assoc.
        erewrite find_open_found_app by done. f_equal. lia.
    + apply list_lookup_singleton_Some in Hq as [Hq' ->].
      exists (length s), j0. repeat split; try done.
      * lia.
      * by apply list_lookup_middle.
      * rewrite Haj. lia.
      * rewrite take_app_ge by lia.
        replace (q - length s)%nat with (S (length t)) by lia. simpl.
        rewrite take_app_le, firstn_all by lia.
        rewrite rev_app_distr. simpl. rewrite <- app_assoc. simpl.
        rewrite (find_open_wf _ _ Ht). simpl. rewrite Hj. simpl.
        f_equal. lia.
Qed.

(** ** optimize: folding *)

Lemma expand_app (l k : list Instruction) :
  expand (l ++ k) = expand l ++ expand k.
Proof. unfold expand. apply bind_app. Qed.

Lemma fmap_op_set_arg (out : list Instruction) (hd : nat) (a : Z) :
  op <$> set_arg out hd a = op <$> out.
Proof.
  unfold set_arg. destruct (out !! hd) as [j|] eqn:E; [|done].
  rewrite list_fmap_insert. simpl. apply list_insert_id.
  by rewrite list_lookup_fmap, E.
Qed.

Lemma set_arg_length (out : list Instruction) (hd : nat) (a : Z) :
  length (set_arg out hd a) = length out.
Proof.
  unfold set_arg. destruct (out !! hd); [|done]. apply length_insert.
Qed.

Lemma expand_set_arg (out : list Instruction) (hd : nat) (a : Z)
    (j : Instruction) :
  out !! hd = Some j -> op j = OP_JMP ->
  expand (set_arg out hd a) = expand out.
Proof.
  intros Hj Hop. unfold set_arg. rewrite Hj.
  rewrite insert_take_drop by by eapply lookup_lt_Some.
  rewrite <- (take_drop_middle out hd j Hj) at 3.
  rewrite !expand_app. f_equal.
  change (expand (?x :: ?l)) with (expand1 x ++ expand l).
  f_equal. unfold expand1. simpl. by rewrite Hop.
Qed.

Lemma expand_replicate (o : Opcode) (n : nat) (a : Z) :
  is_simple o = true ->
  expand [mkInst o (a + Z.of_nat n)] = replicate (Z.to_nat (a + Z.of_nat n)) (mkInst o 1).
Proof.
  intros Ho. unfold expand. simpl. rewrite app_nil_r.
  unfold expand1. simpl. by destruct o.
Qed.

Lemma expand_unit (b : Instruction) :
  arg b = 1 -> expand [b] = [b].
Proof.
  destruct b as [o a]. simpl. intros ->. unfold expand, expand1. simpl.
  by destruct o.
Qed.

Lemma expand_jne (a : Z) : expand [mkInst OP_JNE a] = [mkInst OP_JNE 1].
Proof. reflexivity. Qed.

(** Folding keeps the text: the output of [optimize] expands to its input. *)
Lemma optimize_loop_expand (body out : list Instruction) (st : list nat)
    (res : list Instruction) :
  Forall (fun i => op i <> NUM_OPS) body ->
  Forall (fun i => arg i = 1) body ->
  Forall (fun hd => exists j, out !! hd = Some j /\ op j = OP_JMP) st ->
  optimize_loop (body ++ [END]) out st = SUCCESS res ->
  expand res = expand out ++ body ++ [END].
Proof.
  intros Hbody. revert body out st Hbody res.
  apply (optimize_body_ind (fun body out st r =>
    forall res,
    Forall (fun i => arg i = 1) body ->
    Forall (fun hd => exists j, out !! hd = Some j /\ op j = OP_JMP) st ->
    r = SUCCESS res ->
    expand res = expand out ++ body ++ [END])).
  - intros out st res _ _ [= <-]. by rewrite expand_app.
  - intros b rest out st r Hb IH res Hunit Hst Hr.
    apply Forall_cons_1 in Hunit as [Hargb Hunit].
    rewrite (IH res); [| done | | done].
    + rewrite expand_app, <- app_assoc. f_equal.
      by rewrite expand_unit.
    + constructor.
      * exists b. split; [|done]. by apply list_lookup_middle.
      * eapply Forall_impl; [|exact Hst]. intros hd (j & Hj & Hop).
        exists j. split; [|done]. by apply lookup_app_l_Some.
  - done.
  - intros b rest out hd tl r Hb IH res Hunit Hst Hr.
    apply Forall_cons_1 in Hunit as [Hargb Hunit].
    apply Forall_cons_1 in Hst as [(j & Hj & Hop) Hst].
    rewrite (IH res); [| done | | done].
    + rewrite expand_app, (expand_set_arg _ _ _ j), <- app_assoc by done.
      f_equal. rewrite expand_jne. simpl. f_equal.
      destruct b as [o a]. simpl in *. congruence.
    + eapply Forall_impl; [|exact Hst]. intros hd' (j' & Hj' & Hop').
      assert (Hl : op <$> (set_arg out hd (Z.of_nat (length out)) !! hd')
                   = Some OP_JMP).
      { rewrite <- list_lookup_fmap, fmap_op_set_arg, list_lookup_fmap.
        by rewrite Hj', <- Hop'. }
      apply fmap_Some in Hl as (j'' & Hj'' & Hop'').
      exists j''. split; [|done]. by apply lookup_app_l_Some.
  - intros b rest out st r Hb IH res Hunit Hst Hr.
    apply Forall_cons_1 in Hunit as [Hargb Hunit].
    rewrite (IH res); [| by apply Forall_drop | | done].
    + rewrite expand_app, <- app_assoc. f_equal.
      rewrite Hargb, expand_replicate by done.
      replace (Z.to_nat (1 + Z.of_nat (run_length (op b) rest)))
        with (S (run_length (op b) rest)) by lia.
      assert (Hrest : replicate (run_length (op b) rest) (mkInst (op b) 1)
                      ++ drop (run_length (op b) rest) rest = rest).
      { rewrite <- (run_length_take _ _ Hunit). apply take_drop. }
      rewrite <- Hrest at 4. simpl. rewrite <- app_assoc.
      f_equal. destruct b as [o a]. simpl in *. congruence.
    + eapply Forall_impl; [|exact Hst]. intros hd (j & Hj & Hop).
      exists j. split; [|done]. by apply lookup_app_l_Some.
Qed.

Lemma folded_snoc (l : list Instruction) (x : Instruction) :
  folded (l ++ [x]) <->
  folded l /\
  (forall o, list.last (op <$> l) = Some o -> o = op x -> is_jump o = true).
Proof.
  induction l as [|a l IH]; simpl.
  - split; [|done]. intros _. split; [done|]. intros o. done.
  - destruct l as [|b l]; simpl in *.
    + split.
      * intros [H _]. split; [done|]. intros o [= <-]. done.
      * intros [_ H]. split; [|done]. intros E. by apply H.
    + rewrite IH. tauto.
Qed.

Lemma folded_ops (l l' : list Instruction) :
  op <$> l = op <$> l' -> folded l -> folded l'.
Proof.
  revert l'. induction l as [|a l IH]; intros [|a' l'] Heq; try done.
  simpl in Heq. injection Heq as Ha Hl.
  destruct l as [|b l], l' as [|b' l']; try done.
  intros [H1 H2]. split.
  - simpl in Hl. injection Hl as Hb _. rewrite <- Ha, <- Hb. done.
  - by apply IH.
Qed.

Lemma last_snoc_op (l : list Instruction) (x : Instruction) :
  list.last (op <$> l ++ [x]) = Some (op x).
Proof. rewrite fmap_app. simpl. apply last_snoc. Qed.

(** The output of [optimize] has no two neighbours with the same opcode,
    jumps apart. *)
Lemma optimize_loop_folded (body out : list Instruction) (st : list nat)
    (res : list Instruction) :
  Forall (fun i => op i <> NUM_OPS) body ->
  Forall (fun o => o <> NUM_OPS) (op <$> out) ->
  folded out ->
  (forall o b, list.last (op <$> out) = Some o -> head body = Some b ->
     o = op b -> is_jump o = true) ->
  optimize_loop (body ++ [END]) out st = SUCCESS res ->
  folded res.
Proof.
  intros Hbody. revert body out st Hbody res.
  apply (optimize_body_ind (fun body out st r =>
    forall res,
    Forall (fun o => o <> NUM_OPS) (op <$> out) ->
    folded out ->
    (forall o b, list.last (op <$> out) = Some o -> head body = Some b ->
       o = op b -> is_jump o = true) ->
    r = SUCCESS res ->
    folded res)).
  - intros out st res Hout Hf _ [= <-]. apply folded_snoc. split; [done|].
    intros o Hlast ->. apply last_Some_elem_of, list_elem_of_In in Hlast.
    rewrite Forall_forall in Hout. by destruct (Hout _ Hlast).
  - intros b rest out st r Hb IH res Hout Hf Hbd Hr.
    apply (IH res); [| |  |done].
    + rewrite fmap_app. apply Forall_app. split; [done|].
      repeat constructor. by rewrite Hb.
    + apply folded_snoc. split; [done|]. intros o Hl Ho. by eapply Hbd.
    + intros o b'. rewrite last_snoc_op. intros [= <-] _ _. by rewrite Hb.
  - done.
  - intros b rest out hd tl r Hb IH res Hout Hf Hbd Hr.
    apply (IH res); [| |  |done].
    + rewrite fmap_app, fmap_op_set_arg. apply Forall_app. split; [done|].
      by repeat constructor.
    + apply (folded_ops (out ++ [b])).
      { rewrite !fmap_app, fmap_op_set_arg. simpl. by rewrite Hb. }
      apply folded_snoc. split; [done|]. intros o Hl Ho. by eapply Hbd.
    + intros o b'. rewrite last_snoc_op. by intros [= <-] _ _.
  - intros b rest out st r Hb IH res Hout Hf Hbd Hr.
    assert (Hne : op b <> NUM_OPS) by (intros E; by rewrite E in Hb).
    apply (IH res); [| |  |done].
    + rewrite fmap_app. apply Forall_app. split; [done|].
      by repeat constructor.
    + apply folded_snoc. split; [done|]. intros o Hl Ho. by eapply Hbd.
    + intros o b'. rewrite last_snoc_op. intros [= <-] Hhd E. simpl in E.
      by apply run_length_head in Hhd.
Qed.

(** ** The optimizer on valid input *)

Lemma unit_code_ops (body : list Instruction) :
  unit_code body -> Forall (fun i => op i <> NUM_OPS) body.
Proof. apply Forall_impl. tauto. Qed.

Lemma unit_code_args (body : list Instruction) :
  unit_code body -> Forall (fun i => arg i = 1) body.
Proof. apply Forall_impl. tauto. Qed.

Lemma wf_block_ops (base : nat) (s : list Instruction) :
  wf_block base s ->
  Forall (fun i => op i <> NUM_OPS /\ (is_simple (op i) = true -> 1 <= arg i)) s.
Proof.
  induction 1 as [base|base s x Hs IHs Hx Hax
                 |base s j t c Hs IHs Ht IHt Hj Haj Hc Hac].
  - constructor.
  - apply Forall_app. split; [done|]. repeat constructor; [|done].
    intros E. by rewrite E in Hx.
  - apply Forall_app. split; [done|]. constructor.
    { rewrite Hj. done. }
    apply Forall_app. split; [done|]. repeat constructor; by rewrite Hc.
Qed.

Lemma optimize_valid (body : list Instruction) :
  unit_code body ->
  closes_all 0 body = true ->
  exists out,
    optimize (body ++ [END]) = SUCCESS (out ++ [END]) /\
    wf_block 0 out /\
    expand out = body /\
    folded (out ++ [END]).
Proof.
  intros Hunit Hbal.
  destruct (optimize_loop_wf body [] [] (unit_code_ops _ Hunit)
              (unit_code_args _ Hunit) Hbal (ob_base [] (wf_nil 0)))
    as (out & Hout & Hwf).
  exists out. split; [done|]. split; [done|]. split.
  - pose proof (optimize_loop_expand body [] [] _ (unit_code_ops _ Hunit)
                  (unit_code_args _ Hunit) (Forall_nil _) Hout) as He.
    rewrite expand_app in He. simpl in He.
    by apply app_inv_tail in He.
  - apply (optimize_loop_folded body [] [] _ (unit_code_ops _ Hunit));
      [constructor|done| |done].
    intros o b. done.
Qed.

(** C4.  On valid lowered input, that is unit code with balanced brackets
    before the end marker, [optimize] returns a program in which no two
    neighbours share an opcode other than a jump, in which a folded
    instruction counts at least one command, and which expands to the input:
    each folded instruction stands for as many consecutive unit instructions
    of its opcode as its argument says. *)
Theorem optimizer_folds_runs (body : list Instruction) :
  unit_code body ->
  closes_all 0 body = true ->
  exists optimized,
    optimize (body ++ [END]) = SUCCESS optimized /\
    folded optimized /\
    Forall (fun i => is_simple (op i) = true -> 1 <= arg i) optimized /\
    expand optimized = body ++ [END].
Proof.
  intros Hunit Hbal.
  destruct (optimize_valid body Hunit Hbal) as (out & Hopt & Hwf & Hex & Hf).
  exists (out ++ [END]). repeat split; try done.
  - apply Forall_app. split.
    + eapply Forall_impl; [|exact (wf_block_ops _ _ Hwf)]. simpl. tauto.
    + by repeat constructor.
  - by rewrite expand_app, Hex.
Qed.

Lemma optimizer_folds_runs_witness :
  exists optimized,
    optimize (lower (chars_of_string "+++[->>,,<<]..") ++ [END])
    = SUCCESS optimized /\
    folded optimized /\
    Forall (fun i => is_simple (op i) = true -> 1 <= arg i) optimized /\
    expand optimized = lower (chars_of_string "+++[->>,,<<]..") ++ [END].
Proof.
  apply (optimizer_folds_runs (lower (chars_of_string "+++[->>,,<<].."))).
  - repeat constructor; discriminate.
  - reflexivity.
Defined.

(** The lowered form of balanced command tokens is valid input. *)
Lemma lower_unit_code (tokens : list Z) :
  Forall (fun c => is_command c = true) tokens -> unit_code (lower tokens).
Proof.
  induction 1 as [|c tokens Hc Htok IH]; [constructor|].
  simpl. constructor; [|done]. split; [|done]. by apply opcode_of_command.
Qed.

Lemma lower_closes_all (tokens : list Z) (depth : Z) :
  Forall (fun c => is_command c = true) tokens ->
  0 <= depth ->
  balanced_from depth tokens = true ->
  closes_all (Z.to_nat depth) (lower tokens) = true.
Proof.
  intros Htok. revert depth.
  induction Htok as [|c tokens Hc Htok IH]; intros depth Hd; simpl.
  - intros H%Z.eqb_eq. by subst.
  - intros [Hd' Hbal]%andb_prop. apply Z.leb_le in Hd'.
    command_cases Hc; simpl in *; try by apply IH.
    + replace (S (Z.to_nat depth)) with (Z.to_nat (depth + 1)) by lia.
      by apply IH.
    + replace (Z.to_nat depth) with (S (Z.to_nat (depth - 1))) by lia.
      by apply IH.
Qed.

(** The front end on balanced command tokens. *)
Lemma front_end_balanced (ast0 : nat -> Opcode) (tokens : list Z) :
  Forall (fun c => is_command c = true) tokens ->
  balanced tokens = true ->
  exists out,
    (ast ← parse ast0 (tokens ++ [NUL]); bc ← compile ast; optimize bc)
    = SUCCESS (out ++ [END]) /\
    wf_block 0 out /\
    expand out = lower tokens /\
    folded (out ++ [END]).
Proof.
  intros Htok Hbal.
  rewrite parse_balanced by done. simpl.
  rewrite compile_lower by done. simpl.
  apply optimize_valid.
  - by apply lower_unit_code.
  - by apply (lower_closes_all tokens 0).
Qed.

(** ** Jump pairs *)

Lemma matching_close_resolved (out : list Instruction) (p q : nat) :
  (p < q)%nat ->
  find_close (drop (S p) out) 0 = Some (q - S p)%nat ->
  matching_close (out ++ [END]) (Z.of_nat p) = Some (Z.of_nat q).
Proof.
  intros Hpq Hf. unfold matching_close.
  replace (Z.to_nat (Z.of_nat p) + 1)%nat with (S p) by lia.
  destruct (decide (S p <= length out)%nat) as [Hle|Hgt].
  - rewrite drop_app_le by done.
    rewrite (find_close_found_app _ _ _ _ Hf). simpl. f_equal. lia.
  - rewrite drop_ge in Hf by lia. done.
Qed.

Lemma matching_open_resolved (out : list Instruction) (p q : nat) :
  (p < q)%nat ->
  (q <= length out)%nat ->
  find_open (rev (take q out)) 0 = Some (q - S p)%nat ->
  matching_open (out ++ [END]) (Z.of_nat q) = Some (Z.of_nat p).
Proof.
  intros Hpq Hq Hf. unfold matching_open.
  rewrite Nat2Z.id, take_app_le by done.
  rewrite Hf. simpl. f_equal. lia.
Qed.

Lemma lookup_before_end (out : list Instruction) (p : nat) (i : Instruction) :
  (out ++ [END]) !! p = Some i -> op i <> NUM_OPS -> out !! p = Some i.
Proof.
  intros [H|[_ H]]%lookup_app_Some Hop; [done|].
  apply list_lookup_singleton_Some in H as [_ <-]. done.
Qed.

(** C5.  For balanced command tokens the front end succeeds with a program
    that expands to the lowered tokens, so that it holds every bracket of
    the source as a jump, in order.  In this program an opening jump at [P]
    and the closing jump at [Q] that the text matches with it carry each
    other's own position: the argument at [P] is [Q] and the argument at
    [Q] is [P].  Every jump of the program has such a partner. *)
Theorem jumps_carry_partner_positions (ast0 : nat -> Opcode)
    (tokens : list Z) :
  Forall (fun c => is_command c = true) tokens ->
  balanced tokens = true ->
  exists optimized,
    (ast ← parse ast0 (tokens ++ [NUL]); bc ← compile ast; optimize bc)
    = SUCCESS optimized /\
    expand optimized = lower tokens ++ [END] /\
    (forall P j, optimized !! P = Some j -> op j = OP_JMP ->
       exists Q c,
         matching_close optimized (Z.of_nat P) = Some (Z.of_nat Q) /\
         optimized !! Q = Some c /\ op c = OP_JNE /\
         arg j = Z.of_nat Q /\ arg c = Z.of_nat P) /\
    (forall Q c, optimized !! Q = Some c -> op c = OP_JNE ->
       exists P j,
         matching_open optimized (Z.of_nat Q) = Some (Z.of_nat P) /\
         optimized !! P = Some j /\ op j = OP_JMP /\
         arg j = Z.of_nat Q /\ arg c = Z.of_nat P).
Proof.
  intros Htok Hbal.
  destruct (front_end_balanced ast0 tokens Htok Hbal)
    as (out & Hopt & Hwf & Hex & _).
  exists (out ++ [END]). split; [done|].
  split; [by rewrite expand_app, Hex|]. split.
  - intros P j HP Hj.
    apply lookup_before_end in HP; [|by rewrite Hj].
    destruct (wf_block_jmp 0 out Hwf P j HP Hj)
      as (Q & c & HPQ & HQ & Hc & Haj & Hac & Hf).
    exists Q, c. repeat split; try done.
    + by apply matching_close_resolved.
    + by apply lookup_app_l_Some.
  - intros Q c HQ Hc.
    apply lookup_before_end in HQ; [|by rewrite Hc].
    destruct (wf_block_jne 0 out Hwf Q c HQ Hc)
      as (P & j & HPQ & HP & Hj & Haj & Hac & Hf).
    exists P, j. repeat split; try done.
    + apply matching_open_resolved; [done| |done].
      apply lookup_lt_Some in HQ. lia.
    + by apply lookup_app_l_Some.
Qed.

Lemma jumps_carry_partner_positions_witness :
  exists optimized,
    (ast ← parse (fun _ => NUM_OPS) (chars_of_string "+[[-]>>[,.]<]" ++ [NUL]);
     bc ← compile ast; optimize bc)
    = SUCCESS optimized /\
    expand optimized = lower (chars_of_string "+[[-]>>[,.]<]") ++ [END] /\
    (forall P j, optimized !! P = Some j -> op j = OP_JMP ->
       exists Q c,
         matching_close optimized (Z.of_nat P) = Some (Z.of_nat Q) /\
         optimized !! Q = Some c /\ op c = OP_JNE /\
         arg j = Z.of_nat Q /\ arg c = Z.of_nat P) /\
    (forall Q c, optimized !! Q = Some c -> op c = OP_JNE ->
       exists P j,
         matching_open optimized (Z.of_nat Q) = Some (Z.of_nat P) /\
         optimized !! P = Some j /\ op j = OP_JMP /\
         arg j = Z.of_nat Q /\ arg c = Z.of_nat P).
Proof.
  apply (jumps_carry_partner_positions (fun _ => NUM_OPS)
           (chars_of_string "+[[-]>>[,.]<]")).
  - repeat constructor.
  - reflexivity.
Defined.

(** ** Positions in the expanded text *)

Lemma expand_cons (i : Instruction) (l : list Instruction) :
  expand (i :: l) = expand1 i ++ expand l.
Proof. reflexivity. Qed.

Lemma expand1_simple (i : Instruction) :
  is_simple (op i) = true ->
  expand1 i = replicate (Z.to_nat (arg i)) (mkInst (op i) 1).
Proof. unfold expand1. by destruct (op i). Qed.

Lemma expand1_jump (i : Instruction) :
  is_jump (op i) = true -> expand1 i = [mkInst (op i) 1].
Proof. unfold expand1. by destruct (op i). Qed.

Lemma find_close_replicate (o : Opcode) (n : nat) (rest : list Instruction)
    (d : nat) :
  is_simple o = true ->
  find_close (replicate n (mkInst o 1) ++ rest) d
  = Nat.add n <$> find_close rest d.
Proof.
  intros Ho. induction n as [|n IH]; simpl replicate; simpl app.
  - by destruct (find_close rest d).
  - rewrite find_close_simple, IH by done. option_arith (find_close rest d).
Qed.

Lemma find_open_replicate (o : Opcode) (n : nat) (rest : list Instruction)
    (d : nat) :
  is_simple o = true ->
  find_open (replicate n (mkInst o 1) ++ rest) d
  = Nat.add n <$> find_open rest d.
Proof.
  intros Ho. induction n as [|n IH]; simpl replicate; simpl app.
  - by destruct (find_open rest d).
  - rewrite find_open_simple, IH by done. option_arith (find_open rest d).
Qed.

(** Textual matching in the expanded text follows the matching in the
    folded one. *)
Lemma find_close_expand (l : list Instruction) (d : nat) :
  find_close (expand l) d
  = (fun k => length (expand (take k l))) <$> find_close l d.
Proof.
  revert d. induction l as [|i l IH]; intros d; [done|].
  rewrite expand_cons.
  destruct (is_simple (op i)) eqn:Hs.
  - rewrite expand1_simple, find_close_replicate, find_close_simple, IH
      by done.
    destruct (find_close l d); simpl; [|done].
    by rewrite length_app, expand1_simple, length_replicate by done.
  - unfold expand1. simpl find_close at 2.
    destruct (op i) eqn:Ho; try discriminate; simpl.
    + rewrite IH. destruct (find_close l (S d)); simpl; [|done].
      rewrite length_app. unfold expand1. by rewrite Ho.
    + destruct d as [|d]; [done|].
      rewrite IH. destruct (find_close l d); simpl; [|done].
      rewrite length_app. unfold expand1. by rewrite Ho.
    + rewrite Ho, IH. destruct (find_close l d); simpl; [|done].
      rewrite length_app. unfold expand1. by rewrite Ho.
Qed.

Lemma find_open_expand (l : list Instruction) (d : nat) :
  find_open (expand l) d
  = (fun k => length (expand (take k l))) <$> find_open l d.
Proof.
  revert d. induction l as [|i l IH]; intros d; [done|].
  rewrite expand_cons.
  destruct (is_simple (op i)) eqn:Hs.
  - rewrite expand1_simple, find_open_replicate, find_open_simple, IH
      by done.
    destruct (find_open l d); simpl; [|done].
    by rewrite length_app, expand1_simple, length_replicate by done.
  - unfold expand1. simpl find_open at 2.
    destruct (op i) eqn:Ho; try discriminate; simpl.
    + destruct d as [|d]; [done|].
      rewrite IH. destruct (find_open l d); simpl; [|done].
      rewrite length_app. unfold expand1. by rewrite Ho.
    + rewrite IH. destruct (find_open l (S d)); simpl; [|done].
      rewrite length_app. unfold expand1. by rewrite Ho.
    + rewrite Ho, IH. destruct (find_open l d); simpl; [|done].
      rewrite length_app. unfold expand1. by rewrite Ho.
Qed.

Lemma rev_replicate {A} (n : nat) (x : A) :
  rev (replicate n x) = replicate n x.
Proof.
  induction n as [|n IH]; simpl; [done|]. rewrite IH. clear IH.
  induction n as [|n IH]; simpl; congruence.
Qed.

Lemma rev_expand1 (i : Instruction) : rev (expand1 i) = expand1 i.
Proof.
  unfold expand1. destruct (op i); try done; apply rev_replicate.
Qed.

Lemma rev_expand (l : list Instruction) : rev (expand l) = expand (rev l).
Proof.
  induction l as [|i l IH]; [done|].
  rewrite expand_cons, rev_app_distr, IH, rev_expand1. simpl.
  rewrite expand_app. unfold expand at 3. simpl. by rewrite app_nil_r.
Qed.

Lemma start_S (out : list Instruction) (c : nat) (i : Instruction) :
  out !! c = Some i ->
  start out (S c) = (start out c + length (expand1 i))%nat.
Proof.
  intros Hi. unfold start. erewrite take_S_r by done.
  rewrite expand_app, length_app. unfold expand at 2. simpl.
  by rewrite app_nil_r.
Qed.

Lemma start_end (out : list Instruction) :
  start out (length out) = length (expand out).
Proof. unfold start. by rewrite firstn_all. Qed.

Lemma take_start (out : list Instruction) (c : nat) :
  take (start out c) (expand out) = expand (take c out).
Proof.
  unfold start. rewrite <- (take_drop c out) at 2.
  rewrite expand_app. by rewrite take_app_length.
Qed.

Lemma drop_start (out : list Instruction) (c : nat) :
  drop (start out c) (expand out) = expand (drop c out).
Proof.
  unfold start. rewrite <- (take_drop c out) at 2.
  rewrite expand_app. by rewrite drop_app_length.
Qed.

Lemma start_le (out : list Instruction) (c : nat) :
  (start out c <= length (expand out))%nat.
Proof.
  rewrite <- (take_drop c out) at 2. rewrite expand_app, length_app.
  unfold start. lia.
Qed.

Lemma lookup_expand (out : list Instruction) (c k : nat) (i x : Instruction) :
  out !! c = Some i ->
  expand1 i !! k = Some x ->
  (expand out ++ [END]) !! (start out c + k)%nat = Some x.
Proof.
  intros Hi Hk. apply lookup_app_l_Some. unfold start.
  assert (He : expand out
               = expand (take c out) ++ expand1 i ++ expand (drop (S c) out)).
  { rewrite <- (take_drop_middle out c i Hi) at 1.
    by rewrite expand_app, expand_cons. }
  rewrite He.
  rewrite lookup_app_r by lia.
  replace (length (expand (take c out)) + k - length (expand (take c out)))%nat
    with k by lia.
  by apply lookup_app_l_Some.
Qed.

Lemma lookup_expand_end (out : list Instruction) :
  (expand out ++ [END]) !! start out (length out) = Some END.
Proof. rewrite start_end. by apply list_lookup_middle. Qed.

(** ** One folded instruction against its unit commands *)

Lemma naive_units_add (k : nat) (s : state) (c : Z) :
  zlookup (data s) (dp s) = Some c ->
  naive_units OP_ADD (S k) s
  = SUCCESS (mkState (dp s)
               (<[Z.to_nat (dp s) := to_char (c + Z.of_nat (S k))]> (data s))
               (stdin s) (stdout s)).
Proof.
  revert s c. induction k as [|k IH]; intros s c Hc.
  - simpl. rewrite (load_Some _ _ Hc). simpl.
    by rewrite (store_Some _ _ _ Hc).
  - change (naive_units OP_ADD (S (S k)) s)
      with (s' ← naive_unit OP_ADD s; naive_units OP_ADD (S k) s').
    simpl naive_unit. rewrite (load_Some _ _ Hc). simpl mbind at 2.
    rewrite (store_Some _ _ _ Hc). unfold mbind at 1, outcome_bind.
    erewrite IH by (simpl; by eapply zlookup_insert_data). simpl.
    rewrite list_insert_insert_eq, to_char_add.
    by replace (c + 1 + Z.of_nat (S k)) with (c + Z.of_nat (S (S k))) by lia.
Qed.

Lemma naive_units_sub (k : nat) (s : state) (c : Z) :
  zlookup (data s) (dp s) = Some c ->
  naive_units OP_SUB (S k) s
  = SUCCESS (mkState (dp s)
               (<[Z.to_nat (dp s) := to_char (c - Z.of_nat (S k))]> (data s))
               (stdin s) (stdout s)).
Proof.
  revert s c. induction k as [|k IH]; intros s c Hc.
  - simpl. rewrite (load_Some _ _ Hc). simpl.
    by rewrite (store_Some _ _ _ Hc).
  - change (naive_units OP_SUB (S (S k)) s)
      with (s' ← naive_unit OP_SUB s; naive_units OP_SUB (S k) s').
    simpl naive_unit. rewrite (load_Some _ _ Hc). simpl mbind at 2.
    rewrite (store_Some _ _ _ Hc). unfold mbind at 1, outcome_bind.
    erewrite IH by (simpl; by eapply zlookup_insert_data). simpl.
    rewrite list_insert_insert_eq.
    replace (to_char (c - 1) - Z.of_nat (S k))
      with (to_char (c - 1) + - Z.of_nat (S k)) by lia.
    rewrite to_char_add.
    by replace (c - 1 + - Z.of_nat (S k)) with (c - Z.of_nat (S (S k))) by lia.
Qed.

Lemma naive_units_undefined (o : Opcode) (k : nat) (s : state) :
  o = OP_ADD \/ o = OP_SUB \/ o = OP_PUT \/ o = OP_GET ->
  zlookup (data s) (dp s) = None ->
  naive_units o (S k) s = UNDEFINED.
Proof.
  intros Ho Hc. simpl.
  destruct Ho as [->|[->|[->| ->]]]; simpl;
    rewrite ?(load_None _ Hc); try done.
  destruct (getchar s) as [c s1] eqn:E.
  assert (Hs1 : zlookup (data s1) (dp s1) = None).
  { unfold getchar in E. destruct (stdin s); injection E as <- <-; done. }
  by rewrite (store_None _ _ Hs1).
Qed.

Lemma naive_units_inc (k : nat) (s : state) :
  naive_units OP_INC (S k) s = SUCCESS (set_dp (dp s + Z.of_nat (S k)) s).
Proof.
  revert s. induction k as [|k IH]; intros s; [done|].
  change (naive_units OP_INC (S (S k)) s)
    with (naive_units OP_INC (S k) (set_dp (dp s + 1) s)).
  rewrite IH. unfold set_dp. simpl. do 2 f_equal. lia.
Qed.

Lemma naive_units_dec (k : nat) (s : state) :
  naive_units OP_DEC (S k) s = SUCCESS (set_dp (dp s - Z.of_nat (S k)) s).
Proof.
  revert s. induction k as [|k IH]; intros s; [done|].
  change (naive_units OP_DEC (S (S k)) s)
    with (naive_units OP_DEC (S k) (set_dp (dp s - 1) s)).
  rewrite IH. unfold set_dp. simpl. do 2 f_equal. lia.
Qed.

Lemma naive_units_put (k : nat) (s : state) :
  naive_units OP_PUT k s = put_loop k s.
Proof.
  revert s. induction k as [|k IH]; intros s; [done|].
  simpl. destruct (load s); simpl; [|done..]. apply IH.
Qed.

Lemma naive_units_get (k : nat) (s : state) :
  naive_units OP_GET k s = get_loop k s.
Proof.
  revert s. induction k as [|k IH]; intros s; [done|].
  simpl. destruct (getchar s) as [c s1].
  destruct (store c s1); simpl; [|done..]. apply IH.
Qed.

(** A folded instruction does what its unit commands do one after the
    other. *)
Lemma exec_units (o : Opcode) (k : nat) (ip : Z) (s : state) :
  is_simple o = true ->
  exec (mkInst o (Z.of_nat (S k))) ip s
  = s' ← naive_units o (S k) s; mret (ip, s').
Proof.
  intros Ho. unfold exec. simpl op. cbv beta.
  destruct o; try discriminate; simpl arg.
  - destruct (zlookup (data s) (dp s)) as [c|] eqn:Hc.
    + rewrite (naive_units_add _ _ _ Hc), (load_Some _ _ Hc). simpl.
      by rewrite (store_Some _ _ _ Hc).
    + rewrite naive_units_undefined, (load_None _ Hc) by tauto. done.
  - destruct (zlookup (data s) (dp s)) as [c|] eqn:Hc.
    + rewrite (naive_units_sub _ _ _ Hc), (load_Some _ _ Hc). simpl.
      by rewrite (store_Some _ _ _ Hc).
    + rewrite naive_units_undefined, (load_None _ Hc) by tauto. done.
  - by rewrite naive_units_inc.
  - by rewrite naive_units_dec.
  - by rewrite naive_units_put, Nat2Z.id.
  - by rewrite naive_units_get, Nat2Z.id.
Qed.

(** The naive interpreter over a run of [k] copies of one command. *)
Lemma naive_loop_units (o : Opcode) (nprog : list Instruction) :
  is_simple o = true ->
  forall (k base : nat) (s : state),
    (forall m, (m < k)%nat -> nprog !! (base + m)%nat = Some (mkInst o 1)) ->
    naive_loop k nprog (Z.of_nat base) s
    = match naive_units o k s with
      | SUCCESS s' => Running (Z.of_nat (base + k)) s'
      | _ => Crashed
      end.
Proof.
  intros Ho. induction k as [|k IH]; intros base s Hrun.
  - simpl. by rewrite Nat.add_0_r.
  - simpl naive_loop. rewrite zlookup_of_nat.
    pose proof (Hrun 0%nat ltac:(lia)) as H0. rewrite Nat.add_0_r in H0.
    rewrite H0. simpl op.
    destruct (decide (o = NUM_OPS)) as [->|_]; [done|].
    assert (He : naive_exec nprog (mkInst o 1) (Z.of_nat base) s
                 = s' ← naive_unit o s; mret (Z.of_nat base, s')).
    { unfold naive_exec. simpl. by destruct o. }
    rewrite He. simpl naive_units.
    destruct (naive_unit o s) as [s'| |]; simpl; [|done..].
    replace (Z.of_nat base + 1) with (Z.of_nat (S base)) by lia.
    rewrite IH.
    + by replace (S base + k)%nat with (base + S k)%nat by lia.
    + intros m Hm. replace (S base + m)%nat with (base + S m)%nat by lia.
      apply Hrun. lia.
Qed.

(** ** Jumps in the expanded text *)

Lemma start_add (out : list Instruction) (n m : nat) :
  start out (n + m) = (start out n + length (expand (take m (drop n out))))%nat.
Proof.
  unfold start. by rewrite <- take_take_drop, expand_app, length_app.
Qed.

Lemma matching_close_expand (out : list Instruction) (c q : nat)
    (i : Instruction) :
  out !! c = Some i ->
  is_jump (op i) = true ->
  (c < q)%nat ->
  find_close (drop (S c) out) 0 = Some (q - S c)%nat ->
  matching_close (expand out ++ [END]) (Z.of_nat (start out c))
  = Some (Z.of_nat (start out q)).
Proof.
  intros Hi Hj Hcq Hf. unfold matching_close.
  replace (Z.to_nat (Z.of_nat (start out c)) + 1)%nat with (start out (S c)).
  2:{ rewrite (start_S _ _ _ Hi), expand1_jump by done. simpl. lia. }
  rewrite drop_app_le by apply start_le.
  rewrite drop_start.
  erewrite find_close_found_app; [|by rewrite find_close_expand, Hf].
  simpl. f_equal.
  replace q with (S c + (q - S c))%nat at 2 by lia.
  rewrite start_add, (start_S _ _ _ Hi), expand1_jump by done. simpl. lia.
Qed.

Lemma matching_open_expand (out : list Instruction) (p c : nat)
    (j : Instruction) :
  out !! p = Some j ->
  is_jump (op j) = true ->
  (p < c)%nat ->
  (c <= length out)%nat ->
  find_open (rev (take c out)) 0 = Some (c - S p)%nat ->
  matching_open (expand out ++ [END]) (Z.of_nat (start out c))
  = Some (Z.of_nat (start out p)).
Proof.
  intros Hj Hop Hpc Hc Hf. unfold matching_open.
  rewrite Nat2Z.id, take_app_le by apply start_le.
  rewrite take_start, rev_expand, find_open_expand, Hf. simpl. f_equal.
  rewrite firstn_rev, length_take, <- rev_expand, length_rev.
  replace (c `min` length out - (c - S p))%nat with (S p) by lia.
  assert (Hs : start out c
               = (start out (S p)
                  + length (expand (drop (S p) (take c out))))%nat).
  { replace c with (S p + (c - S p))%nat at 1 by lia.
    rewrite start_add. f_equal.
    rewrite take_drop_commute.
    by replace (S p + (c - S p))%nat with c by lia. }
  rewrite (start_S _ _ _ Hj), expand1_jump in Hs by done. simpl in Hs. lia.
Qed.

(** ** The optimized program against the naive interpreter *)

Section Simulation.
Variable out : list Instruction.
Hypothesis Hwf : wf_block 0 out.

(** One round of [run] is matched by one or more rounds of the naive
    interpreter, which ends where the next optimized instruction starts. *)
Lemma sim_round (c : nat) (s : state) :
  (c <= length out)%nat ->
  match run_loop 1 (out ++ [END]) (Z.of_nat c) s with
  | Running ip' s' =>
      exists c' k,
        ip' = Z.of_nat c' /\ (c' <= length out)%nat /\ (1 <= k)%nat /\
        naive_loop k (expand out ++ [END]) (Z.of_nat (start out c)) s
        = Running (Z.of_nat (start out c')) s'
  | Halted s' =>
      naive_loop 1 (expand out ++ [END]) (Z.of_nat (start out c)) s = Halted s'
  | Crashed =>
      exists k,
        (1 <= k)%nat /\
        naive_loop k (expand out ++ [END]) (Z.of_nat (start out c)) s = Crashed
  end.
Proof.
  intros Hc. simpl run_loop. rewrite zlookup_of_nat.
  destruct (decide (c = length out)) as [->|Hne].
  { rewrite list_lookup_middle by done. simpl.
    by rewrite zlookup_of_nat, lookup_expand_end. }
  destruct (lookup_lt_is_Some_2 out c ltac:(lia)) as [i Hi].
  rewrite (lookup_app_l_Some _ _ _ _ Hi).
  destruct (Forall_lookup_1 _ _ _ _ (wf_block_ops _ _ Hwf) Hi)
    as [Hnend Harg].
  destruct (decide (op i = NUM_OPS)) as [|_]; [done|].
  destruct (is_simple (op i)) eqn:Hs.
  - specialize (Harg eq_refl). destruct i as [o a]. simpl in Hs, Harg.
    assert (Ha : a = Z.of_nat (S (Z.to_nat a - 1))) by lia.
    rewrite Ha in Hi |- *. clear Ha Harg. set (k := (Z.to_nat a - 1)%nat) in *.
    rewrite exec_units by done.
    assert (Hx : expand1 (mkInst o (Z.of_nat (S k)))
                 = replicate (S k) (mkInst o 1)).
    { rewrite expand1_simple by done. simpl op. simpl arg.
      by rewrite Nat2Z.id. }
    pose proof (naive_loop_units o (expand out ++ [END]) Hs (S k)
                  (start out c) s) as Hn.
    assert (Hrun : forall m, (m < S k)%nat ->
              (expand out ++ [END]) !! (start out c + m)%nat
              = Some (mkInst o 1)).
    { intros m Hm. eapply lookup_expand; [done|].
      rewrite Hx. by apply lookup_replicate_2. }
    specialize (Hn Hrun).
    destruct (naive_units o (S k) s) as [s'| |]; simpl.
    + exists (S c), (S k). repeat split; try lia.
      by rewrite Hn, (start_S _ _ _ Hi), Hx, length_replicate.
    + exists (S k). split; [lia|done].
    + exists (S k). split; [lia|done].
  - assert (Hjump : is_jump (op i) = true).
    { destruct (op i); try done. }
    assert (Ht : (expand out ++ [END]) !! start out c
                 = Some (mkInst (op i) 1)).
    { rewrite <- (Nat.add_0_r (start out c)).
      eapply lookup_expand; [done|]. by rewrite expand1_jump. }
    assert (Hn1 : naive_loop 1 (expand out ++ [END])
                    (Z.of_nat (start out c)) s
                  = match naive_exec (expand out ++ [END])
                            (mkInst (op i) 1) (Z.of_nat (start out c)) s with
                    | SUCCESS (ip', s') => Running (ip' + 1) s'
                    | _ => Crashed
                    end).
    { simpl naive_loop. rewrite zlookup_of_nat, Ht. simpl op.
      destruct (decide (op i = NUM_OPS)) as [|_]; [done|].
      by destruct (naive_exec _ _ _ _) as [[??]| |]. }
    unfold naive_exec in Hn1. simpl op in Hn1.
    unfold exec.
    destruct (op i) eqn:Ho; try discriminate.
    + destruct (wf_block_jmp 0 out Hwf c i Hi Ho)
        as (q & cj & Hcq & Hq & Hcj & Haj & _ & Hf).
      destruct (load s) as [v| |]; simpl in *; [|by exists 1%nat..].
      destruct (v =? 0); simpl in *.
      * erewrite matching_close_expand in Hn1
          by (done || by rewrite Ho).
        simpl in Hn1. exists (S q), 1%nat.
        apply lookup_lt_Some in Hq as Hq'.
        repeat split; try lia.
        etrans; [exact Hn1|]. f_equal. rewrite (start_S _ _ _ Hq).
        rewrite expand1_jump by by rewrite Hcj. simpl. lia.
      * exists (S c), 1%nat. repeat split; try lia.
        etrans; [exact Hn1|]. f_equal. rewrite (start_S _ _ _ Hi).
        rewrite expand1_jump by by rewrite Ho. simpl. lia.
    + destruct (wf_block_jne 0 out Hwf c i Hi Ho)
        as (p & j & Hpc & Hp & Hj & _ & Hac & Hf).
      destruct (load s) as [v| |]; simpl in *; [|by exists 1%nat..].
      destruct (v =? 0); simpl in *.
      * exists (S c), 1%nat. repeat split; try lia.
        etrans; [exact Hn1|]. f_equal. rewrite (start_S _ _ _ Hi).
        rewrite expand1_jump by by rewrite Ho. simpl. lia.
      * erewrite matching_open_expand in Hn1
          by (done || lia || by rewrite Hj).
        simpl in Hn1. exists (S p), 1%nat.
        repeat split; try lia.
        etrans; [exact Hn1|]. f_equal. rewrite (start_S _ _ _ Hp).
        rewrite expand1_jump by by rewrite Hj. simpl. lia.
Qed.

(** Whatever [run] shows after [n] rounds, the naive interpreter shows
    after [n] rounds or more. *)
Lemma sim_rounds (n c : nat) (s : state) :
  (c <= length out)%nat ->
  exists n',
    (n <= n')%nat /\
    observe (run_loop n (out ++ [END]) (Z.of_nat c) s)
    = observe (naive_loop n' (expand out ++ [END]) (Z.of_nat (start out c)) s).
Proof.
  revert c s. induction n as [|n IH]; intros c s Hc.
  { exists 0%nat. split; [lia|done]. }
  pose proof (sim_round c s Hc) as Hround.
  change (S n) with (1 + n)%nat. rewrite run_loop_add.
  destruct (run_loop 1 (out ++ [END]) (Z.of_nat c) s) as [ip' s'|s'|].
  - destruct Hround as (c' & k & -> & Hc' & Hk & Hnaive).
    destruct (IH c' s' Hc') as (n' & Hn' & Hobs).
    exists (k + n')%nat. split; [lia|].
    by rewrite naive_loop_add, Hnaive.
  - exists (1 + n)%nat. split; [lia|].
    by rewrite naive_loop_add, Hround.
  - destruct Hround as (k & Hk & Hnaive).
    exists (k + n)%nat. split; [lia|].
    by rewrite naive_loop_add, Hnaive.
Qed.
End Simulation.

Lemma naive_loop_halted_more (n m : nat) (prog : list Instruction) (ip : Z)
    (s : state) (o : list Z) :
  (n <= m)%nat ->
  observe (naive_loop n prog ip s) = HasHalted o ->
  observe (naive_loop m prog ip s) = HasHalted o.
Proof.
  intros Hle H. replace m with (n + (m - n))%nat by lia.
  rewrite naive_loop_add.
  by destruct (naive_loop n prog ip s).
Qed.

(** C3.  For balanced command tokens the front end yields a program whose
    run shows, after any number of rounds, what the naive interpreter shows
    on the lowered unit code after as many rounds or more: the same bytes
    written, and the same state of the run (going, halted, crashed).  So the
    optimized program halts with output [o] exactly when the naive
    interpreter does. *)
Theorem optimizer_preserves_output (ast0 : nat -> Opcode)
    (tokens input : list Z) :
  Forall (fun c => is_command c = true) tokens ->
  balanced tokens = true ->
  exists optimized,
    (ast ← parse ast0 (tokens ++ [NUL]); bc ← compile ast; optimize bc)
    = SUCCESS optimized /\
    (forall fuel, exists fuel',
       (fuel <= fuel')%nat /\
       observe (run fuel optimized input)
       = observe (naive_run fuel' (lower tokens ++ [END]) input)) /\
    (forall o,
       (exists fuel, observe (run fuel optimized input) = HasHalted o) <->
       (exists fuel,
          observe (naive_run fuel (lower tokens ++ [END]) input)
          = HasHalted o)).
Proof.
  intros Htok Hbal.
  destruct (front_end_balanced ast0 tokens Htok Hbal)
    as (out & Hopt & Hwf & Hex & _).
  exists (out ++ [END]). split; [done|].
  assert (Hsim : forall fuel, exists fuel',
            (fuel <= fuel')%nat /\
            observe (run fuel (out ++ [END]) input)
            = observe (naive_run fuel' (lower tokens ++ [END]) input)).
  { intros fuel. rewrite <- Hex.
    apply (sim_rounds out Hwf fuel 0 (initial_state input)). lia. }
  split; [done|]. intros o. split.
  - intros [fuel Hrun]. destruct (Hsim fuel) as (fuel' & _ & Hobs).
    exists fuel'. by rewrite <- Hobs.
  - intros [fuel Hnaive]. destruct (Hsim fuel) as (fuel' & Hle & Hobs).
    exists fuel. rewrite Hobs.
    by apply (naive_loop_halted_more fuel fuel').
Qed.

Lemma optimizer_preserves_output_witness :
  exists optimized,
    (ast ← parse (fun _ => NUM_OPS) (chars_of_string ",[->++<]>." ++ [NUL]);
     bc ← compile ast; optimize bc)
    = SUCCESS optimized /\
    (forall fuel, exists fuel',
       (fuel <= fuel')%nat /\
       observe (run fuel optimized [3])
       = observe (naive_run fuel'
                    (lower (chars_of_string ",[->++<]>.") ++ [END]) [3])) /\
    (forall o,
       (exists fuel, observe (run fuel optimized [3]) = HasHalted o) <->
       (exists fuel,
          observe (naive_run fuel
                     (lower (chars_of_string ",[->++<]>.") ++ [END]) [3])
          = HasHalted o)).
Proof.
  apply (optimizer_preserves_output (fun _ => NUM_OPS)
           (chars_of_string ",[->++<]>.") [3]).
  - repeat constructor.
  - reflexivity.
Defined.

(** ** Determinism *)

Lemma lex_loop_commands (input tokens : list Z) (count : Z)
    (toks rest : list Z) :
  lex_loop input tokens count = SUCCESS (toks, rest) ->
  exists cmds,
    toks = tokens ++ cmds ++ [NUL] /\
    Forall (fun c => is_command c = true) cmds.
Proof.
  revert tokens count. induction input as [|c input IH]; intros tokens count.
  - intros [= <- <-]. by exists [].
  - simpl. destruct (to_char c =? EOF).
    { intros [= <- <-]. by exists []. }
    destruct (count >=? TAPELEN - 2); [done|].
    destruct (is_command (to_char c)) eqn:Hc; [|apply IH].
    intros (cmds & -> & Hcmds)%IH. exists (to_char c :: cmds).
    split; [by rewrite <- app_assoc|]. by constructor.
Qed.

Lemma main_halted (ast0 : nat -> Opcode) (fuel : nat) (input : list Z) :
  exit_status (main ast0 fuel input) <> None ->
  forall ast0' fuel', (fuel <= fuel')%nat ->
    main ast0' fuel' input = main ast0 fuel input.
Proof.
  intros Hexit ast0' fuel' Hle. unfold main in *.
  destruct (lex input) as [[toks rest]| |] eqn:Hlex; [|done..].
  apply lex_loop_commands in Hlex as (cmds & -> & Hcmds). simpl in *.
  rewrite !parse_commands in * by done.
  destruct (net_depth cmds =? 0); [|done].
  destruct (compile _) as [bytecode| |]; [|done..].
  destruct (optimize bytecode) as [optimized| |]; [|done..].
  unfold run in *.
  destruct (run_loop fuel optimized 0 (initial_state rest)) as [| s |] eqn:E;
    try done.
  by rewrite (run_loop_halted_more fuel fuel' _ _ _ s).
Qed.

(** C9.  Two runs of the pipeline on the same stream that both come to an
    exit, however long each was given and whatever the uninitialised [ast]
    buffer held, leave the same exit status, the same error text and the
    same output bytes. *)
Theorem runs_agree (ast0 ast0' : nat -> Opcode) (fuel fuel' : nat)
    (input : list Z) :
  exit_status (main ast0 fuel input) <> None ->
  exit_status (main ast0' fuel' input) <> None ->
  main ast0 fuel input = main ast0' fuel' input.
Proof.
  intros H1 H2.
  rewrite <- (main_halted ast0 fuel input H1 ast0 (fuel + fuel')) by lia.
  rewrite <- (main_halted ast0' fuel' input H2 ast0 (fuel + fuel')) by lia.
  done.
Qed.

Lemma runs_agree_witness :
  main (fun _ => NUM_OPS) 50 (chars_of_string "++++++++[>++++++++<-]>.")
  = main (fun _ => OP_ADD) 90 (chars_of_string "++++++++[>++++++++<-]>.").
Proof.
  apply (runs_agree (fun _ => NUM_OPS) (fun _ => OP_ADD) 50 90
           (chars_of_string "++++++++[>++++++++<-]>.")).
  - vm_compute. discriminate.
  - vm_compute. discriminate.
Defined.

(** * Further properties of the code *)

(** ** lex: the token buffer *)

Lemma lex_loop_bound (input tokens : list Z) (count : Z) (toks rest : list Z) :
  count = Z.of_nat (length tokens) ->
  count <= TAPELEN - 2 ->
  lex_loop input tokens count = SUCCESS (toks, rest) ->
  exists cmds pre,
    toks = tokens ++ cmds ++ [NUL] /\
    Forall (fun c => is_command c = true) cmds /\
    Z.of_nat (length tokens + length cmds) <= TAPELEN - 2 /\
    input = pre ++ rest.
Proof.
  revert tokens count. induction input as [|c input IH];
    intros tokens count Hcount Hle.
  - intros [= <- <-]. exists [], []. rewrite Nat.add_0_r. repeat split; [constructor|lia].
  - simpl. destruct (to_char c =? EOF).
    { intros [= <- <-]. exists [], [c]. rewrite Nat.add_0_r.
      repeat split; [constructor|lia]. }
    destruct (count >=? TAPELEN - 2) eqn:Hg; [done|].
    rewrite Z.geb_leb in Hg. apply Z.leb_gt in Hg.
    destruct (is_command (to_char c)) eqn:Hc.
    + intros H. apply IH in H as (cmds & pre & -> & Hcmds & Hlen & ->).
      * exists (to_char c :: cmds), (c :: pre).
        rewrite <- app_assoc. repeat split; [by constructor|].
        rewrite length_app in Hlen. simpl in *. lia.
      * rewrite length_app. simpl. lia.
      * lia.
    + intros H. apply IH in H as (cmds & pre & -> & Hcmds & Hlen & ->);
        [|done..].
      by exists cmds, (c :: pre).
Qed.

(** X1.  When [lex] succeeds, the token buffer holds command characters
    only, then the terminating NUL, and fits [tokens[TAPELEN]] with a slot
    to spare; what [lex] leaves of the stream is a tail of what it was
    given. *)
Theorem lex_tokens_fit (input toks rest : list Z) :
  lex input = SUCCESS (toks, rest) ->
  exists cmds pre,
    toks = cmds ++ [NUL] /\
    Forall (fun c => is_command c = true) cmds /\
    Z.of_nat (length toks) < TAPELEN /\
    input = pre ++ rest.
Proof.
  intros H. apply lex_loop_bound in H as (cmds & pre & -> & Hcmds & Hlen & ->);
    [|done|unfold TAPELEN; lia].
  exists cmds, pre. repeat split; [done|].
  simpl in *. rewrite length_app. simpl. lia.
Qed.

Lemma lex_tokens_fit_witness :
  exists cmds pre,
    chars_of_string "+-" ++ [NUL] = cmds ++ [NUL] /\
    Forall (fun c => is_command c = true) cmds /\
    Z.of_nat (length (chars_of_string "+-" ++ [NUL])) < TAPELEN /\
    chars_of_string "+ -" ++ [EOF; 7] = pre ++ [7].
Proof.
  apply (lex_tokens_fit (chars_of_string "+ -" ++ [EOF; 7])
           (chars_of_string "+-" ++ [NUL]) [7]).
  reflexivity.
Defined.

(** ** parse: counting brackets *)

Lemma net_depth_counts (tokens : list Z) :
  net_depth tokens
  = Z.of_nat (length (filter (fun c => c = 91) tokens))
    - Z.of_nat (length (filter (fun c => c = 93) tokens)).
Proof.
  induction tokens as [|c tokens IH]; [done|].
  simpl net_depth. rewrite IH.
  destruct (decide (c = 91)) as [->|H1].
  - rewrite filter_cons_True, filter_cons_False by done.
    simpl length. simpl Z.eqb. lia.
  - destruct (decide (c = 93)) as [->|H2].
    + rewrite filter_cons_False, filter_cons_True by done.
      simpl length. simpl Z.eqb. lia.
    + rewrite !filter_cons_False by done.
      apply Z.eqb_neq in H1, H2. rewrite H1, H2. lia.
Qed.

(** X2.  On command tokens [parse] looks at the two bracket counts only:
    when the text has as many opening as closing brackets it succeeds and
    stores one opcode per token, in order, then the end marker; when the
    counts differ it fails.  The old content of [ast] plays no part. *)
Theorem parse_compares_counts (ast0 : nat -> Opcode) (tokens : list Z) :
  Forall (fun c => is_command c = true) tokens ->
  let opens := length (filter (fun c => c = 91) tokens) in
  let closes := length (filter (fun c => c = 93) tokens) in
  (opens = closes ->
   parse ast0 (tokens ++ [NUL]) = SUCCESS ((opcode_of <$> tokens) ++ [NUM_OPS])) /\
  (opens <> closes -> parse ast0 (tokens ++ [NUL]) = FAILURE).
Proof.
  intros Htok opens closes. rewrite parse_commands by done.
  rewrite net_depth_counts. fold opens closes. split; intros H.
  - by replace (Z.of_nat opens - Z.of_nat closes) with 0 by lia.
  - destruct (Z.eqb_spec (Z.of_nat opens - Z.of_nat closes) 0); [lia|done].
Qed.

Lemma parse_compares_counts_witness :
  parse (fun _ => OP_PUT) (chars_of_string "]+[[]" ++ [NUL])
  = SUCCESS [OP_JNE; OP_ADD; OP_JMP; OP_JMP; OP_JNE; NUM_OPS].
Proof.
  apply (parse_compares_counts (fun _ => OP_PUT) (chars_of_string "]+[[]")).
  - repeat constructor.
  - reflexivity.
Defined.

(** ** compile: unit instructions up to the end marker *)

Lemma compile_loop_units (ops junk : list Opcode)
    (bytecode : list Instruction) :
  Forall (fun o => o <> NUM_OPS) ops ->
  compile_loop (ops ++ NUM_OPS :: junk) bytecode
  = SUCCESS (bytecode ++ ((fun o => mkInst o 1) <$> ops) ++ [END]).
Proof.
  intros Hops. revert bytecode.
  induction Hops as [|o ops Ho Hops IH]; intros bytecode; [done|].
  simpl. destruct (decide (o = NUM_OPS)); [done|].
  by rewrite IH, <- app_assoc.
Qed.

(** X3.  [compile] turns the opcodes before the first end marker into unit
    instructions, one for one and in order, closes them with the end
    instruction, and does not look at what the buffer holds after the
    marker; the opcodes can be read back from its output. *)
Theorem compile_units (ops junk : list Opcode) :
  Forall (fun o => o <> NUM_OPS) ops ->
  exists bytecode,
    compile (ops ++ NUM_OPS :: junk) = SUCCESS bytecode /\
    bytecode = ((fun o => mkInst o 1) <$> ops) ++ [mkInst NUM_OPS 0] /\
    op <$> bytecode = ops ++ [NUM_OPS] /\
    length bytecode = S (length ops).
Proof.
  intros Hops. exists (((fun o => mkInst o 1) <$> ops) ++ [mkInst NUM_OPS 0]).
  split; [by apply compile_loop_units|].
  split; [done|]. split.
  - rewrite fmap_app. f_equal.
    clear Hops. induction ops as [|o ops IH]; [done|].
    rewrite !fmap_cons. simpl. by rewrite IH.
  - rewrite length_app, length_fmap. simpl. lia.
Qed.

Lemma compile_units_witness :
  exists bytecode,
    compile ([OP_GET; OP_JMP; OP_PUT] ++ NUM_OPS :: [OP_ADD; NUM_OPS])
    = SUCCESS bytecode /\
    bytecode = ((fun o => mkInst o 1) <$> [OP_GET; OP_JMP; OP_PUT])
               ++ [mkInst NUM_OPS 0] /\
    op <$> bytecode = [OP_GET; OP_JMP; OP_PUT] ++ [NUM_OPS] /\
    length bytecode = S (length [OP_GET; OP_JMP; OP_PUT]).
Proof.
  apply (compile_units [OP_GET; OP_JMP; OP_PUT] [OP_ADD; NUM_OPS]).
  repeat constructor; discriminate.
Defined.

(** ** The reserved failures *)

Lemma compile_loop_not_failure (ast : list Opcode)
    (bytecode : list Instruction) :
  compile_loop ast bytecode <> FAILURE.
Proof.
  revert bytecode. induction ast as [|o ast IH]; intros bytecode; [done|].
  simpl. destruct (decide (o = NUM_OPS)); [done|apply IH].
Qed.

Lemma optimize_loop_not_failure (bcode out : list Instruction)
    (st : list nat) :
  optimize_loop bcode out st <> FAILURE.
Proof.
  revert out st.
  induction bcode as [bcode IH] using (induction_ltof1 _ (@length _)).
  unfold ltof in IH. intros out st.
  destruct bcode as [|b rest]; [done|].
  destruct (is_simple (op b)) eqn:Hs.
  - rewrite optimize_loop_fold by done. apply IH.
    rewrite length_drop. simpl. lia.
  - simpl.
    destruct (decide (op b = NUM_OPS)); [done|].
    destruct (decide (op b = OP_JMP)); [apply IH; simpl; lia|].
    destruct (decide (op b = OP_JNE)).
    + destruct st; [done|]. apply IH. simpl. lia.
    + by rewrite simple_not_end in Hs.
Qed.

(** X4.  [compile] and [optimize] have no failing path, so [main] never
    leaves with "ERROR: Compilation failed" or "ERROR: Optimization failed":
    it quits with the memory error or with the syntax error, and otherwise
    writes nothing to the error stream and does not exit with status 1. *)
Theorem main_errors (ast0 : nat -> Opcode) (fuel : nat) (input : list Z) :
  (forall ast, compile ast <> FAILURE) /\
  (forall bcode, optimize bcode <> FAILURE) /\
  (main ast0 fuel input
   = quit ("ERROR: Program exceeds available memory" ++ newline) \/
   main ast0 fuel input
   = quit ("SYNTAX ERROR: Unmatched '[' or ']'" ++ newline) \/
   stderr (main ast0 fuel input) = EmptyString /\
   exit_status (main ast0 fuel input) <> Some 1).
Proof.
  split; [intros ast; apply compile_loop_not_failure|].
  split; [intros bcode; apply optimize_loop_not_failure|].
  unfold main.
  destruct (lex input) as [[tokens input']| |]; [|by left|by right; right].
  destruct (parse ast0 tokens) as [ast| |];
    [|by right; left|by right; right].
  pose proof (compile_loop_not_failure ast []) as Hc. unfold compile.
  destruct (compile_loop ast []) as [bytecode| |];
    [|done|by right; right].
  pose proof (optimize_loop_not_failure bytecode [] []) as Ho.
  unfold optimize.
  destruct (optimize_loop bytecode [] []) as [optimized| |];
    [|done|by right; right].
  right; right. by destruct (run fuel optimized input').
Qed.

(** ** optimize: when the loop stack runs empty *)

Lemma never_negative_drop_run (o : Opcode) (depth : nat)
    (l : list Instruction) :
  is_simple o = true ->
  never_negative depth (drop (run_length o l) l) = never_negative depth l.
Proof.
  intros Ho. induction l as [|b l IH]; simpl; [done|].
  destruct (decide (op b = o)) as [E|_]; [|done].
  simpl. rewrite IH. rewrite E. by destruct o.
Qed.

Lemma optimize_loop_stack (body out : list Instruction) (st : list nat) :
  Forall (fun i => op i <> NUM_OPS) body ->
  if never_negative (length st) body
  then exists out', optimize_loop (body ++ [END]) out st = SUCCESS (out' ++ [END])
  else optimize_loop (body ++ [END]) out st = UNDEFINED.
Proof.
  revert body out st.
  apply (optimize_body_ind (fun body out st r =>
    if never_negative (length st) body
    then exists out', r = SUCCESS (out' ++ [END])
    else r = UNDEFINED)).
  - intros out st. simpl. by exists out.
  - intros b rest out st r Hb IH. simpl in *. by rewrite Hb.
  - intros b rest out Hb. simpl. by rewrite Hb.
  - intros b rest out hd tl r Hb IH. simpl in *. by rewrite Hb.
  - intros b rest out st r Hb IH.
    rewrite never_negative_drop_run in IH by done.
    simpl. by destruct (op b).
Qed.

(** X5.  On unit code [optimize] dereferences its null loop stack exactly
    when some closing jump comes before any opening jump it could pair
    with; on every other input it succeeds and the output ends with the end
    instruction. *)
Theorem optimize_undefined_iff (body : list Instruction) :
  Forall (fun i => op i <> NUM_OPS) body ->
  (optimize (body ++ [END]) = UNDEFINED <-> never_negative 0 body = false) /\
  (never_negative 0 body = true ->
   exists out, optimize (body ++ [END]) = SUCCESS (out ++ [END])).
Proof.
  intros Hbody. pose proof (optimize_loop_stack body [] [] Hbody) as H.
  simpl in H. unfold optimize.
  destruct (never_negative 0 body).
  - destruct H as [out H]. rewrite H. by split; [split|exists out].
  - rewrite H. by split; [split|].
Qed.

Lemma optimize_undefined_iff_witness :
  optimize (lower (chars_of_string "[-]]+[") ++ [END]) = UNDEFINED.
Proof.
  apply (optimize_undefined_iff (lower (chars_of_string "[-]]+["))).
  - repeat constructor; discriminate.
  - reflexivity.
Defined.

(** ** optimize: the size of the output *)

Lemma optimize_loop_length (body out : list Instruction) (st : list nat)
    (res : list Instruction) :
  Forall (fun i => op i <> NUM_OPS) body ->
  optimize_loop (body ++ [END]) out st = SUCCESS res ->
  (length out < length res <= length out + length body + 1)%nat.
Proof.
  intros Hbody. revert body out st Hbody res.
  apply (optimize_body_ind (fun body out st r =>
    forall res, r = SUCCESS res ->
    (length out < length res <= length out + length body + 1)%nat)).
  - intros out st res [= <-]. rewrite length_app. simpl. lia.
  - intros b rest out st r Hb IH res Hr. apply IH in Hr.
    rewrite length_app in Hr. simpl in *. lia.
  - done.
  - intros b rest out hd tl r Hb IH res Hr. apply IH in Hr.
    rewrite length_app, set_arg_length in Hr. simpl in *. lia.
  - intros b rest out st r Hb IH res Hr. apply IH in Hr.
    rewrite length_app, length_drop in Hr. simpl in *. lia.
Qed.

(** X6.  The program [optimize] returns is never longer than its input, end
    instruction included, so it fits the buffer the input came in; and it is
    never empty. *)
Theorem optimize_no_longer (body res : list Instruction) :
  Forall (fun i => op i <> NUM_OPS) body ->
  optimize (body ++ [END]) = SUCCESS res ->
  (0 < length res <= length (body ++ [END]))%nat.
Proof.
  intros Hbody Hres.
  apply optimize_loop_length in Hres; [|done].
  rewrite length_app. simpl in *. lia.
Qed.

Lemma optimize_no_longer_witness :
  (0 < length [mkInst OP_ADD 3; mkInst OP_JMP 3; mkInst OP_SUB 2;
               mkInst OP_JNE 1; END]
   <= length (lower (chars_of_string "+++[--]") ++ [END]))%nat.
Proof.
  apply (optimize_no_longer (lower (chars_of_string "+++[--]"))).
  - repeat constructor; discriminate.
  - reflexivity.
Defined.

(** ** run: the tape *)

Lemma tape_ok_store (v : Z) (s s' : state) :
  tape_ok s -> store v s = SUCCESS s' -> tape_ok s'.
Proof.
  intros [Hlen Hch]. unfold store.
  destruct (zlookup (data s) (dp s)); [|done]. intros [= <-].
  split; cbn [data]; [by rewrite length_insert|].
  apply Forall_insert; [done|apply to_char_range].
Qed.

Lemma tape_ok_put_loop (n : nat) (s s' : state) :
  tape_ok s -> put_loop n s = SUCCESS s' -> tape_ok s'.
Proof.
  revert s. induction n as [|n IH]; intros s Hs; simpl.
  - by intros [= <-].
  - destruct (load s); simpl; [|done..]. by apply IH.
Qed.

Lemma tape_ok_get_loop (n : nat) (s s' : state) :
  tape_ok s -> get_loop n s = SUCCESS s' -> tape_ok s'.
Proof.
  revert s. induction n as [|n IH]; intros s Hs.
  - by intros [= <-].
  - rewrite get_loop_S.
    assert (Hg : tape_ok (getchar s).2).
    { unfold getchar. by destruct (stdin s). }
    destruct (store _ _) as [s2| |] eqn:E; simpl; [|done..].
    apply IH. by eapply tape_ok_store.
Qed.

Lemma tape_ok_exec (i : Instruction) (ip ip' : Z) (s s' : state) :
  tape_ok s -> exec i ip s = SUCCESS (ip', s') -> tape_ok s'.
Proof.
  intros Hs. unfold exec. destruct (op i).
  - destruct (load s); simpl; [|done..].
    destruct (store _ s) eqn:E; simpl; [|done..].
    intros [= _ <-]. by eapply tape_ok_store.
  - destruct (load s); simpl; [|done..].
    destruct (store _ s) eqn:E; simpl; [|done..].
    intros [= _ <-]. by eapply tape_ok_store.
  - by intros [= _ <-].
  - by intros [= _ <-].
  - destruct (put_loop _ s) eqn:E; simpl; [|done..].
    intros [= _ <-]. by eapply tape_ok_put_loop.
  - destruct (get_loop _ s) eqn:E; simpl; [|done..].
    intros [= _ <-]. by eapply tape_ok_get_loop.
  - destruct (load s); simpl; [|done..]. by intros [= _ <-].
  - destruct (load s); simpl; [|done..]. by intros [= _ <-].
  - by intros [= _ <-].
Qed.

Lemma tape_ok_run_loop (fuel : nat) (program : list Instruction) (ip : Z)
    (s s' : state) :
  tape_ok s ->
  state_of (run_loop fuel program ip s) = Some s' ->
  tape_ok s'.
Proof.
  revert ip s. induction fuel as [|fuel IH]; intros ip s Hs; simpl.
  - by intros [= <-].
  - destruct (zlookup program ip) as [i|]; [|done].
    destruct (decide (op i = NUM_OPS)); [by intros [= <-]|].
    destruct (exec i ip s) as [[ip1 s1]| |] eqn:E; [|done..].
    apply IH. by eapply tape_ok_exec.
Qed.

(** X7.  Whatever the program and however long it runs, [run] keeps the
    tape at [TAPELEN] cells and every cell within the range of [char]. *)
Theorem run_keeps_tape (fuel : nat) (program : list Instruction)
    (input : list Z) :
  match state_of (run fuel program input) with
  | Some s => tape_ok s
  | None => True
  end.
Proof.
  destruct (state_of (run fuel program input)) as [s|] eqn:E; [|done].
  revert E. apply tape_ok_run_loop.
  unfold tape_ok, initial_state. cbn [data]. split.
  - apply length_replicate.
  - apply Forall_replicate. lia.
Qed.

(** ** run: cell arithmetic *)

Lemma to_char_period (v : Z) : to_char (v + 256) = to_char v.
Proof.
  unfold to_char. replace (v + 256 + 128) with (v + 128 + 1 * 256) by lia.
  by rewrite Z_mod_plus_full.
Qed.

Lemma state_eta (s : state) :
  mkState (dp s) (data s) (stdin s) (stdout s) = s.
Proof. by destruct s. Qed.

(** X8.  Where the data pointer is on the tape, an Increment by [n] followed
    by a Decrement by [n] gives back the state it started from, for every
    [n], wrap-around included. *)
Theorem add_then_sub_restores (n ip : Z) (s : state) (c : Z) :
  zlookup (data s) (dp s) = Some c ->
  -128 <= c < 128 ->
  exists s1,
    exec (mkInst OP_ADD n) ip s = SUCCESS (ip, s1) /\
    exec (mkInst OP_SUB n) ip s1 = SUCCESS (ip, s).
Proof.
  intros Hc Hrange. eexists. split.
  - unfold exec. simpl. rewrite (load_Some _ _ Hc). simpl.
    rewrite (store_Some _ _ _ Hc). reflexivity.
  - unfold exec. simpl.
    erewrite load_Some by (simpl; by eapply zlookup_insert_data). simpl.
    erewrite store_Some by (simpl; by eapply zlookup_insert_data). simpl.
    rewrite list_insert_insert_eq.
    replace (to_char (c + n) - n) with (to_char (c + n) + - n) by lia.
    rewrite to_char_add.
    replace (c + n + - n) with c by lia.
    rewrite to_char_small by done.
    rewrite list_insert_id by (by apply zlookup_Some in Hc as [_ Hc]).
    by rewrite state_eta.
Qed.

Lemma add_then_sub_restores_witness :
  exists s1,
    exec (mkInst OP_ADD 200) 4 (mkState 1 [5; 100; -3] [9] [7])
    = SUCCESS (4, s1) /\
    exec (mkInst OP_SUB 200) 4 s1
    = SUCCESS (4, mkState 1 [5; 100; -3] [9] [7]).
Proof.
  apply (add_then_sub_restores 200 4 (mkState 1 [5; 100; -3] [9] [7]) 100).
  - reflexivity.
  - lia.
Defined.

(** X9.  Cell arithmetic is modulo 256: an Increment or a Decrement by
    [n + 256] does what the one by [n] does, on every state. *)
Theorem cell_arithmetic_wraps (n ip : Z) (s : state) :
  exec (mkInst OP_ADD (n + 256)) ip s = exec (mkInst OP_ADD n) ip s /\
  exec (mkInst OP_SUB (n + 256)) ip s = exec (mkInst OP_SUB n) ip s.
Proof.
  unfold exec, load, store. simpl.
  destruct (zlookup (data s) (dp s)) as [c|]; [|done]. simpl.
  split.
  - replace (c + (n + 256)) with (c + n + 256) by lia.
    by rewrite to_char_period.
  - replace (c - n) with (c - (n + 256) + 256) by lia.
    by rewrite to_char_period.
Qed.

(** ** run: output and input *)

Lemma put_loop_replicate (n : nat) (s : state) (c : Z) :
  zlookup (data s) (dp s) = Some c ->
  put_loop n s
  = SUCCESS (mkState (dp s) (data s) (stdin s)
               (stdout s ++ replicate n (to_uchar c))).
Proof.
  intros Hc. revert s Hc. induction n as [|n IH]; intros s Hc.
  - simpl. by rewrite app_nil_r, state_eta.
  - simpl put_loop. rewrite (load_Some _ _ Hc). simpl mbind.
    unfold mbind, outcome_bind. rewrite (IH (putchar c s)) by done.
    simpl. by rewrite <- app_assoc.
Qed.

Lemma output_repeats_cell_lemma (n ip : Z) (s : state) (c : Z) :
  zlookup (data s) (dp s) = Some c ->
  exec (mkInst OP_PUT n) ip s
  = SUCCESS (ip, mkState (dp s) (data s) (stdin s)
                   (stdout s ++ replicate (Z.to_nat n) (to_uchar c))).
Proof.
  intros Hc. unfold exec. simpl.
  by rewrite (put_loop_replicate _ _ _ Hc).
Qed.

(** X10.  An Output instruction with argument [n] writes the byte of the
    current cell [n] times (nothing when [n] is not positive) and changes
    nothing else: the tape, the data pointer and the input stay as they
    were. *)
Theorem output_repeats_cell (n ip : Z) (s : state) (c : Z) :
  zlookup (data s) (dp s) = Some c ->
  exec (mkInst OP_PUT n) ip s
  = SUCCESS (ip, mkState (dp s) (data s) (stdin s)
                   (stdout s ++ replicate (Z.to_nat n) (to_uchar c))).
Proof.
  intros Hc. unfold exec. simpl.
  by rewrite (put_loop_replicate _ _ _ Hc).
Qed.

Lemma output_repeats_cell_witness :
  exec (mkInst OP_PUT 3) 2 (mkState 0 [-1; 4] [8] [1])
  = SUCCESS (2, mkState 0 [-1; 4] [8] ([1] ++ replicate 3 255)).
Proof.
  apply (output_repeats_cell 3 2 (mkState 0 [-1; 4] [8] [1]) (-1)).
  reflexivity.
Defined.

(** X11.  A byte read by an Input instruction and written by an Output
    instruction comes out as it went in: the conversions to [char] and back
    to [unsigned char] cancel. *)
Theorem read_then_write_echoes (ip : Z) (s : state) (b : Z) (rest : list Z) :
  stdin s = b :: rest ->
  0 <= b < 256 ->
  is_Some (zlookup (data s) (dp s)) ->
  exists s1 s2,
    exec (mkInst OP_GET 1) ip s = SUCCESS (ip, s1) /\
    exec (mkInst OP_PUT 1) ip s1 = SUCCESS (ip, s2) /\
    stdout s2 = stdout s ++ [b] /\
    stdin s2 = rest.
Proof.
  intros Hin Hb [c0 Hc]. eexists. eexists. split; [|split].
  - unfold exec. cbn [op arg].
    change (Z.to_nat 1) with (S (@length Z [])).
    by rewrite (get_loop_last [] b rest s c0 Hin Hc).
  - apply output_repeats_cell_lemma.
    simpl. by eapply zlookup_insert_data.
  - simpl. rewrite to_uchar_to_char, Z.mod_small by lia. done.
Qed.

Lemma read_then_write_echoes_witness :
  exists s1 s2,
    exec (mkInst OP_GET 1) 0 (mkState 0 [0] [200; 3] []) = SUCCESS (0, s1) /\
    exec (mkInst OP_PUT 1) 0 s1 = SUCCESS (0, s2) /\
    stdout s2 = stdout (mkState 0 [0] [200; 3] []) ++ [200] /\
    stdin s2 = [3].
Proof.
  apply (read_then_write_echoes 0 (mkState 0 [0] [200; 3] []) 200 [3]).
  - reflexivity.
  - lia.
  - by eexists.
Defined.

Lemma streams_store (v : Z) (s s' : state) :
  store v s = SUCCESS s' -> stdout s' = stdout s /\ stdin s' = stdin s.
Proof.
  unfold store. destruct (zlookup (data s) (dp s)); [|done].
  by intros [= <-].
Qed.

Lemma streams_put_loop (n : nat) (s s' : state) :
  put_loop n s = SUCCESS s' ->
  stdout s `prefix_of` stdout s' /\ stdin s' = stdin s.
Proof.
  revert s. induction n as [|n IH]; intros s; simpl.
  - by intros [= <-].
  - destruct (load s) as [c| |]; simpl; [|done..].
    intros [Hp Hi]%IH. split; [|done].
    etrans; [|exact Hp]. by apply prefix_app_r.
Qed.

Lemma streams_get_loop (n : nat) (s s' : state) :
  get_loop n s = SUCCESS s' ->
  stdout s' = stdout s /\ stdin s' `suffix_of` stdin s.
Proof.
  revert s. induction n as [|n IH]; intros s.
  - by intros [= <-].
  - rewrite get_loop_S.
    destruct (store _ _) as [s2| |] eqn:E; simpl; [|done..].
    apply streams_store in E as [Eo Ei].
    intros [Ho Hi]%IH. rewrite Ho, Eo. rewrite Ei in Hi.
    unfold getchar in *. destruct (stdin s) as [|c rest] eqn:Hs; simpl in *.
    + by rewrite Hs in Hi.
    + split; [done|]. etrans; [exact Hi|]. by apply suffix_cons_r.
Qed.

Lemma streams_exec (i : Instruction) (ip ip' : Z) (s s' : state) :
  exec i ip s = SUCCESS (ip', s') ->
  stdout s `prefix_of` stdout s' /\ stdin s' `suffix_of` stdin s.
Proof.
  unfold exec. destruct (op i).
  - destruct (load s); simpl; [|done..].
    destruct (store _ s) eqn:E; simpl; [|done..].
    intros [= _ <-]. apply streams_store in E as [-> ->]. done.
  - destruct (load s); simpl; [|done..].
    destruct (store _ s) eqn:E; simpl; [|done..].
    intros [= _ <-]. apply streams_store in E as [-> ->]. done.
  - by intros [= _ <-].
  - by intros [= _ <-].
  - destruct (put_loop _ s) eqn:E; simpl; [|done..].
    intros [= _ <-]. apply streams_put_loop in E as [? ->]. done.
  - destruct (get_loop _ s) eqn:E; simpl; [|done..].
    intros [= _ <-]. apply streams_get_loop in E as [-> ?]. done.
  - destruct (load s); simpl; [|done..]. by intros [= _ <-].
  - destruct (load s); simpl; [|done..]. by intros [= _ <-].
  - by intros [= _ <-].
Qed.

Lemma streams_run_loop (fuel : nat) (program : list Instruction) (ip : Z)
    (s s' : state) :
  state_of (run_loop fuel program ip s) = Some s' ->
  stdout s `prefix_of` stdout s' /\ stdin s' `suffix_of` stdin s.
Proof.
  revert ip s. induction fuel as [|fuel IH]; intros ip s; simpl.
  - by intros [= <-].
  - destruct (zlookup program ip) as [i|]; [|done].
    destruct (decide (op i = NUM_OPS)); [by intros [= <-]|].
    destruct (exec i ip s) as [[ip1 s1]| |] eqn:E; [|done..].
    apply streams_exec in E as [Eo Ei].
    intros [Ho Hi]%IH. split; by etrans.
Qed.

(** X12.  [run] never takes back what it wrote and never reads a value
    twice: given more rounds, the output so far is extended at its end and
    the input left is a tail of what was left before. *)
Theorem run_streams_monotone (n k : nat) (program : list Instruction)
    (ip : Z) (s s1 s2 : state) :
  state_of (run_loop n program ip s) = Some s1 ->
  state_of (run_loop (n + k) program ip s) = Some s2 ->
  stdout s1 `prefix_of` stdout s2 /\ stdin s2 `suffix_of` stdin s1.
Proof.
  rewrite run_loop_add.
  destruct (run_loop n program ip s) as [ip' s'|s'|]; simpl; [| |done].
  - intros [= <-]. apply streams_run_loop.
  - by intros [= <-] [= <-].
Qed.

Lemma run_streams_monotone_witness :
  stdout (mkState 0 [65] [66] [65])
    `prefix_of` stdout (mkState 0 [66] [] [65; 66]) /\
  stdin (mkState 0 [66] [] [65; 66])
    `suffix_of` stdin (mkState 0 [65] [66] [65]).
Proof.
  apply (run_streams_monotone 2 2
           [mkInst OP_GET 1; mkInst OP_PUT 1; mkInst OP_GET 1;
            mkInst OP_PUT 1; END] 0 (mkState 0 [0] [65; 66] [])
           (mkState 0 [65] [66] [65]) (mkState 0 [66] [] [65; 66])).
  - reflexivity.
  - reflexivity.
Defined.

(** ** main: the three ways out of the front end *)













(** ** run: programs without jumps *)

Lemma exec_ip (i : Instruction) (ip ip' : Z) (s s' : state) :
  exec i ip s = SUCCESS (ip', s') ->
  ip' = ip \/ is_jump (op i) = true /\ ip' = arg i.
Proof.
  unfold exec. destruct (op i); simpl.
  - destruct (load s); simpl; [|done..].
    destruct (store _ s); simpl; [|done..]. intros [= <- _]. by left.
  - destruct (load s); simpl; [|done..].
    destruct (store _ s); simpl; [|done..]. intros [= <- _]. by left.
  - intros [= <- _]. by left.
  - intros [= <- _]. by left.
  - destruct (put_loop _ s); simpl; [|done..]. intros [= <- _]. by left.
  - destruct (get_loop _ s); simpl; [|done..]. intros [= <- _]. by left.
  - destruct (load s) as [c| |]; simpl; [|done..].
    intros [= <- _]. destruct (c =? 0); [by right|by left].
  - destruct (load s) as [c| |]; simpl; [|done..].
    intros [= <- _]. destruct (c =? 0); [by left|by right].
  - intros [= <- _]. by left.
Qed.

Lemma straight_line_rounds (out : list Instruction) :
  Forall (fun i => is_simple (op i) = true) out ->
  forall (d c : nat) (s : state),
    (c + d)%nat = length out ->
    match run_loop (S d) (out ++ [END]) (Z.of_nat c) s with
    | Running _ _ => False
    | _ => True
    end.
Proof.
  intros Hout. induction d as [|d IH]; intros c s Hc.
  - simpl. rewrite zlookup_of_nat.
    replace c with (length out) by lia.
    by rewrite list_lookup_middle.
  - change (run_loop (S (S d)) (out ++ [END]) (Z.of_nat c) s)
      with (match zlookup (out ++ [END]) (Z.of_nat c) with
            | None => Crashed
            | Some i =>
                if decide (op i = NUM_OPS) then Halted s
                else match exec i (Z.of_nat c) s with
                     | SUCCESS (ip', s') =>
                         run_loop (S d) (out ++ [END]) (ip' + 1) s'
                     | _ => Crashed
                     end
            end).
    rewrite zlookup_of_nat.
    destruct (lookup_lt_is_Some_2 out c ltac:(lia)) as [i Hi].
    rewrite (lookup_app_l_Some _ _ _ _ Hi).
    pose proof (Forall_lookup_1 _ _ _ _ Hout Hi) as Hs. simpl in Hs.
    destruct (decide (op i = NUM_OPS)); [done|].
    destruct (exec i (Z.of_nat c) s) as [[ip' s']| |] eqn:E; [|done..].
    apply exec_ip in E as [->|[Hj _]].
    + replace (Z.of_nat c + 1) with (Z.of_nat (S c)) by lia.
      apply IH. lia.
    + destruct (op i); discriminate.
Qed.

(** X16.  A program without jumps stops, by reaching its end or by crashing,
    within one round per instruction and one more for the end instruction:
    with that much fuel or more [run_loop] is never left running. *)
Theorem straight_line_terminates (out : list Instruction) (fuel : nat)
    (s : state) :
  Forall (fun i => is_simple (op i) = true) out ->
  (length out < fuel)%nat ->
  match run_loop fuel (out ++ [END]) 0 s with
  | Running _ _ => False
  | _ => True
  end.
Proof.
  intros Hout Hfuel.
  replace fuel with (S (length out) + (fuel - S (length out)))%nat by lia.
  rewrite run_loop_add.
  pose proof (straight_line_rounds out Hout (length out) 0 s eq_refl) as H.
  change (Z.of_nat 0) with 0 in H.
  by destruct (run_loop (S (length out)) (out ++ [END]) 0 s).
Qed.

Lemma straight_line_terminates_witness :
  match run_loop 5 ([mkInst OP_ADD 2; mkInst OP_DEC 1; mkInst OP_PUT 1]
                    ++ [END]) 0 (mkState 0 [0; 0] [] []) with
  | Running _ _ => False
  | _ => True
  end.
Proof.
  apply (straight_line_terminates
           [mkInst OP_ADD 2; mkInst OP_DEC 1; mkInst OP_PUT 1] 5
           (mkState 0 [0; 0] [] [])).
  - repeat constructor.
  - simpl. lia.
Defined.

(** ** run: optimized programs *)

Lemma get_loop_on_tape (n : nat) (s : state) (c : Z) :
  zlookup (data s) (dp s) = Some c ->
  exists s', get_loop n s = SUCCESS s'.
Proof.
  revert s c. induction n as [|n IH]; intros s c Hc; [by exists s|].
  rewrite get_loop_S.
  assert (Hg : zlookup (data (getchar s).2) (dp (getchar s).2) = Some c).
  { unfold getchar. by destruct (stdin s). }
  rewrite (store_Some _ _ _ Hg). simpl.
  eapply IH. simpl. by eapply zlookup_insert_data.
Qed.

(** With the data pointer on the tape every instruction succeeds. *)
Lemma exec_on_tape (i : Instruction) (ip : Z) (s : state) (c : Z) :
  zlookup (data s) (dp s) = Some c ->
  exists ip' s', exec i ip s = SUCCESS (ip', s').
Proof.
  intros Hc. unfold exec. destruct (op i).
  - rewrite (load_Some _ _ Hc). simpl. rewrite (store_Some _ _ _ Hc).
    by eexists _, _.
  - rewrite (load_Some _ _ Hc). simpl. rewrite (store_Some _ _ _ Hc).
    by eexists _, _.
  - by eexists _, _.
  - by eexists _, _.
  - rewrite (put_loop_replicate _ _ _ Hc). by eexists _, _.
  - destruct (get_loop_on_tape (Z.to_nat (arg i)) s c Hc) as [s' ->].
    by eexists _, _.
  - rewrite (load_Some _ _ Hc). by eexists _, _.
  - rewrite (load_Some _ _ Hc). by eexists _, _.
  - by eexists _, _.
Qed.

Lemma exec_moves_succeed (i : Instruction) (ip : Z) (s : state) :
  uses_cell (op i) = false ->
  exists ip' s', exec i ip s = SUCCESS (ip', s').
Proof.
  unfold exec. destruct (op i); try discriminate; intros _; by eexists _, _.
Qed.

Section Safety.
Variable out : list Instruction.
Hypothesis Hwf : wf_block 0 out.

Lemma round_safe (c : nat) (s : state) :
  (c <= length out)%nat ->
  match run_loop 1 (out ++ [END]) (Z.of_nat c) s with
  | Running ip' s' => exists c', ip' = Z.of_nat c' /\ (c' <= length out)%nat
  | Halted _ => True
  | Crashed =>
      exists i,
        zlookup (out ++ [END]) (Z.of_nat c) = Some i /\
        uses_cell (op i) = true /\
        zlookup (data s) (dp s) = None
  end.
Proof.
  intros Hc. simpl. rewrite zlookup_of_nat.
  destruct (decide (c = length out)) as [->|Hne].
  { by rewrite list_lookup_middle. }
  destruct (lookup_lt_is_Some_2 out c ltac:(lia)) as [i Hi].
  rewrite (lookup_app_l_Some _ _ _ _ Hi).
  destruct (decide (op i = NUM_OPS)); [done|].
  assert (Hbad : (forall r, exec i (Z.of_nat c) s <> SUCCESS r) ->
            exists i0, Some i = Some i0 /\ uses_cell (op i0) = true /\
              zlookup (data s) (dp s) = None).
  { intros Hfail. exists i. split; [done|]. split.
    - destruct (uses_cell (op i)) eqn:Hu; [done|].
      destruct (exec_moves_succeed i (Z.of_nat c) s Hu) as (ip' & s' & E).
      by destruct (Hfail (ip', s')).
    - destruct (zlookup (data s) (dp s)) as [v|] eqn:Hv; [|done].
      destruct (exec_on_tape i (Z.of_nat c) s v Hv) as (ip' & s' & E).
      by destruct (Hfail (ip', s')). }
  destruct (exec i (Z.of_nat c) s) as [[ip' s']| |] eqn:E.
  - apply exec_ip in E as [->|[Hj ->]].
    { exists (S c). split; lia. }
    destruct (op i) eqn:Ho; try discriminate.
    + destruct (wf_block_jmp 0 out Hwf c i Hi Ho)
        as (q & cj & _ & Hq & _ & -> & _).
      apply lookup_lt_Some in Hq. exists (S q). split; lia.
    + destruct (wf_block_jne 0 out Hwf c i Hi Ho)
        as (p & j & Hpc & _ & _ & _ & -> & _).
      exists (S p). split; lia.
  - by apply Hbad.
  - by apply Hbad.
Qed.

Lemma rounds_safe (fuel c : nat) (s : state) :
  (c <= length out)%nat ->
  match run_loop fuel (out ++ [END]) (Z.of_nat c) s with
  | Running ip' s' => exists c', ip' = Z.of_nat c' /\ (c' <= length out)%nat
  | Halted _ => True
  | Crashed =>
      exists m ip1 s1 i,
        (m < fuel)%nat /\
        run_loop m (out ++ [END]) (Z.of_nat c) s = Running ip1 s1 /\
        run_loop (S m) (out ++ [END]) (Z.of_nat c) s = Crashed /\
        zlookup (out ++ [END]) ip1 = Some i /\
        uses_cell (op i) = true /\
        zlookup (data s1) (dp s1) = None
  end.
Proof.
  revert c s. induction fuel as [|fuel IH]; intros c s Hc.
  { exists c. by split. }
  pose proof (round_safe c s Hc) as Hround.
  change (S fuel) with (1 + fuel)%nat. rewrite run_loop_add.
  destruct (run_loop 1 (out ++ [END]) (Z.of_nat c) s) as [ip' s'|s'|] eqn:E1.
  - destruct Hround as (c' & -> & Hc').
    pose proof (IH c' s' Hc') as Hrest.
    destruct (run_loop fuel (out ++ [END]) (Z.of_nat c') s'); [done..|].
    destruct Hrest as (m & ip1 & s1 & i & Hm & Hrun & Hcrash & Hi & Hu & Hoff).
    exists (1 + m)%nat, ip1, s1, i. split; [lia|].
    split; [by rewrite run_loop_add, E1|].
    split; [|done].
    change (S (1 + m)) with (1 + S m)%nat. by rewrite run_loop_add, E1.
  - done.
  - destruct Hround as (i & Hi & Hu & Hoff).
    exists 0%nat, (Z.of_nat c), s, i. split; [lia|]. by repeat split.
Qed.
End Safety.

(** X17.  The program the front end makes of balanced command tokens runs
    inside itself: the instruction pointer never leaves the instructions
    written, and a run goes wrong only in the round that executes an
    instruction using the current cell (any but the two pointer moves)
    while the data pointer is off the tape. *)
Theorem optimized_run_safe (ast0 : nat -> Opcode) (tokens : list Z) :
  Forall (fun c => is_command c = true) tokens ->
  balanced tokens = true ->
  exists optimized,
    (ast ← parse ast0 (tokens ++ [NUL]); bc ← compile ast; optimize bc)
    = SUCCESS optimized /\
    forall fuel input,
      match run fuel optimized input with
      | Running ip s => 0 <= ip < Z.of_nat (length optimized)
      | Halted _ => True
      | Crashed =>
          exists m ip s i,
            (m < fuel)%nat /\
            run m optimized input = Running ip s /\
            run (S m) optimized input = Crashed /\
            zlookup optimized ip = Some i /\
            uses_cell (op i) = true /\
            zlookup (data s) (dp s) = None
      end.
Proof.
  intros Htok Hbal.
  destruct (front_end_balanced ast0 tokens Htok Hbal)
    as (out & Hopt & Hwf & _ & _).
  exists (out ++ [END]). split; [done|]. intros fuel input.
  pose proof (rounds_safe out Hwf fuel 0 (initial_state input) ltac:(lia))
    as H.
  unfold run. change (Z.of_nat 0) with 0 in H.
  destruct (run_loop fuel (out ++ [END]) 0 (initial_state input)); [|done..].
  destruct H as (c' & -> & Hc'). rewrite length_app. simpl. lia.
Qed.

Lemma optimized_run_safe_witness :
  exists optimized,
    (ast ← parse (fun _ => OP_ADD) (chars_of_string "+[>+<-]<." ++ [NUL]);
     bc ← compile ast; optimize bc)
    = SUCCESS optimized /\
    forall fuel input,
      match run fuel optimized input with
      | Running ip s => 0 <= ip < Z.of_nat (length optimized)
      | Halted _ => True
      | Crashed =>
          exists m ip s i,
            (m < fuel)%nat /\
            run m optimized input = Running ip s /\
            run (S m) optimized input = Crashed /\
            zlookup optimized ip = Some i /\
            uses_cell (op i) = true /\
            zlookup (data s) (dp s) = None
      end.
Proof.
  apply (optimized_run_safe (fun _ => OP_ADD) (chars_of_string "+[>+<-]<.")).
  - repeat constructor.
  - reflexivity.
Defined.

(** ** optimize: a second pass *)

Lemma stack_mirrors_snoc (pre : list Instruction) (x : Instruction)
    (st : list nat) :
  is_simple (op x) = true ->
  stack_mirrors pre st -> stack_mirrors (pre ++ [x]) st.
Proof.
  intros Hx [Hb Hm]. split.
  - eapply Forall_impl; [|exact Hb]. intros p Hp. rewrite length_app.
    simpl in *. lia.
  - intros d. rewrite rev_app_distr. simpl app.
    rewrite find_open_simple, Hm by done.
    destruct (st !! d) as [p|] eqn:Hp; simpl; [|done].
    pose proof (Forall_lookup_1 _ _ _ _ Hb Hp) as Hlt. simpl in Hlt.
    rewrite length_app. simpl. f_equal. lia.
Qed.

Lemma stack_mirrors_push (pre : list Instruction) (j : Instruction)
    (st : list nat) :
  op j = OP_JMP ->
  stack_mirrors pre st -> stack_mirrors (pre ++ [j]) (length pre :: st).
Proof.
  intros Hj [Hb Hm]. split.
  - constructor; [rewrite length_app; simpl; lia|].
    eapply Forall_impl; [|exact Hb]. intros p Hp. rewrite length_app.
    simpl in *. lia.
  - intros d. rewrite rev_app_distr. simpl app. simpl find_open.
    rewrite Hj, length_app. destruct d as [|d]; simpl.
    + f_equal. lia.
    + rewrite Hm. destruct (st !! d) as [p|] eqn:Hp; simpl; [|done].
      pose proof (Forall_lookup_1 _ _ _ _ Hb Hp) as Hlt. simpl in Hlt.
      f_equal. lia.
Qed.

Lemma stack_mirrors_pop (pre : list Instruction) (c : Instruction)
    (hd : nat) (tl : list nat) :
  op c = OP_JNE ->
  stack_mirrors pre (hd :: tl) -> stack_mirrors (pre ++ [c]) tl.
Proof.
  intros Hc [Hb Hm]. apply Forall_cons_1 in Hb as [_ Hb]. split.
  - eapply Forall_impl; [|exact Hb]. intros p Hp. rewrite length_app.
    simpl in *. lia.
  - intros d. rewrite rev_app_distr. simpl app. simpl find_open.
    rewrite Hc, (Hm (S d)), length_app. simpl.
    destruct (tl !! d) as [p|] eqn:Hp; simpl; [|done].
    pose proof (Forall_lookup_1 _ _ _ _ Hb Hp) as Hlt. simpl in Hlt.
    f_equal. lia.
Qed.

Lemma folded_app_r (l k : list Instruction) : folded (l ++ k) -> folded k.
Proof.
  induction l as [|a l IH]; [done|]. simpl.
  destruct (l ++ k) eqn:E; [|intros [_ H]; by apply IH].
  intros _. apply app_eq_nil in E as [_ ->]. done.
Qed.

Lemma folded_run_length (b : Instruction) (rest : list Instruction) :
  is_simple (op b) = true ->
  folded (b :: rest ++ [END]) ->
  run_length (op b) rest = 0%nat.
Proof.
  intros Hb. destruct rest as [|b' rest]; [done|]. simpl.
  intros [H _]. destruct (decide (op b' = op b)) as [E|_]; [|done].
  symmetry in E. apply H in E. by destruct (op b).
Qed.

Lemma inst_eta (i : Instruction) (o : Opcode) (a : Z) :
  op i = o -> arg i = a -> mkInst o a = i.
Proof. destruct i. simpl. by intros -> ->. Qed.

(** A resolved, folded program goes through [optimize] unchanged. *)
Lemma optimize_loop_again (body pre : list Instruction) (st : list nat) :
  Forall (fun i => op i <> NUM_OPS) body ->
  wf_block 0 (pre ++ body) ->
  folded ((pre ++ body) ++ [END]) ->
  stack_mirrors pre st ->
  optimize_loop (body ++ [END]) pre st = SUCCESS ((pre ++ body) ++ [END]).
Proof.
  intros Hbody. revert body pre st Hbody.
  apply (optimize_body_ind (fun body pre st r =>
    wf_block 0 (pre ++ body) ->
    folded ((pre ++ body) ++ [END]) ->
    stack_mirrors pre st ->
    r = SUCCESS ((pre ++ body) ++ [END]))).
  - intros pre st _ _ _. by rewrite app_nil_r.
  - intros b rest pre st r Hb IH Hwf Hf Hst.
    rewrite (cons_middle b pre rest), app_assoc in Hwf, Hf |- *.
    apply IH; [done..|]. by apply stack_mirrors_push.
  - intros b rest pre Hb Hwf _ [_ Hst]. exfalso.
    destruct (wf_block_jne 0 _ Hwf (length pre) b
                ltac:(by apply list_lookup_middle) Hb)
      as (p & j & _ & _ & _ & _ & _ & Hf).
    rewrite take_app_length, (Hst 0%nat) in Hf. done.
  - intros b rest pre hd tl r Hb IH Hwf Hf Hst.
    destruct (wf_block_jne 0 _ Hwf (length pre) b
                ltac:(by apply list_lookup_middle) Hb)
      as (p & j & Hpq & Hp & Hj & Haj & Hab & Hfo).
    pose proof Hst as [Hbound Hm].
    rewrite take_app_length, (Hm 0%nat) in Hfo. simpl in Hfo.
    apply Forall_cons_1 in Hbound as [Hhd _].
    assert (hd = p) as -> by (injection Hfo; lia).
    rewrite lookup_app_l in Hp by done.
    assert (Hset : set_arg pre p (Z.of_nat (length pre)) = pre).
    { unfold set_arg. rewrite Hp. apply list_insert_id.
      rewrite Hp. f_equal. symmetry. by apply inst_eta. }
    rewrite Hset, (inst_eta b OP_JNE (Z.of_nat p)) in IH by done.
    rewrite (cons_middle b pre rest), app_assoc in Hwf, Hf |- *.
    apply IH; [done..|]. by eapply stack_mirrors_pop.
  - intros b rest pre st r Hb IH Hwf Hf Hst.
    assert (Hrun : run_length (op b) rest = 0%nat).
    { apply folded_run_length; [done|].
      rewrite <- app_assoc in Hf. by apply folded_app_r in Hf. }
    rewrite Hrun, Z.add_0_r, drop_0, (inst_eta b _ _ eq_refl eq_refl) in IH.
    rewrite (cons_middle b pre rest), app_assoc in Hwf, Hf |- *.
    apply IH; [done..|]. by apply stack_mirrors_snoc.
Qed.

(** X18.  [optimize] is idempotent on what it produces from valid input:
    given its own output, it returns it unchanged, every fold and every
    jump target as it was. *)
Theorem optimize_idempotent (body : list Instruction) :
  unit_code body ->
  closes_all 0 body = true ->
  exists optimized,
    optimize (body ++ [END]) = SUCCESS optimized /\
    optimize optimized = SUCCESS optimized.
Proof.
  intros Hunit Hbal.
  destruct (optimize_valid body Hunit Hbal) as (out & Hopt & Hwf & _ & Hf).
  exists (out ++ [END]). split; [done|].
  apply (optimize_loop_again out [] []); [|done|done|].
  - eapply Forall_impl; [|exact (wf_block_ops _ _ Hwf)]. simpl. tauto.
  - split; [constructor|]. intros d. by destruct d.
Qed.

Lemma optimize_idempotent_witness :
  exists optimized,
    optimize (lower (chars_of_string "++[>,,[-]<-]..") ++ [END])
    = SUCCESS optimized /\
    optimize optimized = SUCCESS optimized.
Proof.
  apply (optimize_idempotent (lower (chars_of_string "++[>,,[-]<-]..") )).
  - repeat constructor; discriminate.
  - reflexivity.
Defined.

(** ** main: comments *)






